(** * clean_m3u: an M3U playlist link checker

    A shallow embedding of [clean_m3u.py] and the properties of its
    parser ([parse_m3u]), its probe ([test_url]) and its driver
    ([clean_m3u], [main]).

    Conventions.
    - A Python [str] is a sequence of Unicode code points: [text] is
      [list N], one number per code point.  ASCII literals of the script
      are written [lit "..."].
    - A file holds text: the codec ([encoding="utf-8"], undecodable bytes
      dropped on reading) is outside the model, the newline handling of
      text-mode files is inside it.
    - Loops that advance an index are functions on that index, defined by
      well-founded recursion on the number of lines left. *)

From Stdlib Require Import String Ascii ZArith QArith Lia DecimalString.
From stdpp Require Import base list gmap.
From Equations Require Import Equations.

Set Default Proof Using "Type".

(** ** Text *)

Abbreviation text := (list N).

(** An ASCII literal as a sequence of code points. *)
Definition lit (s : string) : text := N_of_ascii <$> list_ascii_of_string s.

Definition LF : N := 10%N.
Definition CR : N := 13%N.

(** The characters [str.strip()] removes: those for which [str.isspace]
    holds (CPython's [_PyUnicode_IsWhitespace]). *)
Definition isspace (c : N) : bool :=
  (((9 <=? c) && (c <=? 13)) || ((28 <=? c) && (c <=? 32))
   || (c =? 133) || (c =? 160) || (c =? 5760)
   || ((8192 <=? c) && (c <=? 8202))
   || (c =? 8232) || (c =? 8233) || (c =? 8239) || (c =? 8287) || (c =? 12288))%N.

(** [s.lstrip(chars)], [s.rstrip(chars)] for a set of characters given as
    a predicate. *)
Fixpoint lstrip_by (p : N → bool) (s : text) : text :=
  match s with
  | c :: s' => if p c then lstrip_by p s' else s
  | [] => []
  end.

Definition rstrip_by (p : N → bool) (s : text) : text :=
  reverse (lstrip_by p (reverse s)).

(** [s.strip()] *)
Definition strip (s : text) : text := rstrip_by isspace (lstrip_by isspace s).

(** [s.rstrip("\n")] *)
Definition rstrip_newline (s : text) : text := rstrip_by (N.eqb LF) s.

(** [s.startswith(p)] *)
Fixpoint startswith (p s : text) : bool :=
  match p, s with
  | [], _ => true
  | a :: p', b :: s' => (a =? b)%N && startswith p' s'
  | _ :: _, [] => false
  end.

(** Truth value of a string, of bytes, of a list: [if s:] *)
Definition truthy {A} (s : list A) : bool :=
  match s with [] => false | _ :: _ => true end.

(** ** Reading a text file line by line

    [open(path, "r", ...)] leaves [newline] at its default [None]:
    universal newlines.  On reading, the line endings "\r\n" and "\r" are
    translated into "\n" before the text reaches the caller, and iterating
    over the file yields the pieces that end in "\n" (the last piece may
    lack it). *)

Fixpoint universal_newlines (s : text) : text :=
  match s with
  | [] => []
  | c :: s' =>
      if (c =? CR)%N then
        LF :: match s' with
              | d :: s'' => if (d =? LF)%N then universal_newlines s''
                            else universal_newlines s'
              | [] => []
              end
      else c :: universal_newlines s'
  end.

(** [for line in f]: the lines of the translated text, each with its
    terminating "\n"; [cur] is the line being read. *)
Fixpoint iter_lines (cur : text) (s : text) : list text :=
  match s with
  | [] => match cur with [] => [] | _ => [cur] end
  | c :: s' =>
      if (c =? LF)%N then (cur ++ [c]) :: iter_lines [] s'
      else iter_lines (cur ++ [c]) s'
  end.

(** [lines = [line.rstrip("\n") for line in f]] *)
Definition read_lines (content : text) : list text :=
  rstrip_newline <$> iter_lines [] (universal_newlines content).

(** ** The parser *)

Definition entry : Type := text * text.

Definition EXTINF : text := lit "#EXTINF".
Definition EXTM3U : text := lit "#EXTM3U".
Definition HASH : text := lit "#".

(** The inner [while j < len(lines)] of [parse_m3u]: the search for the
    URL line from index [j] on.  It returns the values of [url_line] and
    [j] when the loop is left: by [break] with the line found, or by its
    condition with [url_line] still empty. *)
Equations? scan_url (lines : list text) (j : nat) : text * nat
  by wf (length lines - j) lt :=
scan_url lines j with decide (j < length lines) => {
  | right _ => ([], j)
  | left _ with (let candidate := strip (lines !!! j) in
                 bool_decide (candidate = []) || startswith HASH candidate) => {
      | true => scan_url lines (S j)
      | false => (lines !!! j, j) } }.
Proof. lia. Qed.

(** A value together with the equation that it is the value of [a]. *)
Definition inspect {A} (a : A) : {b : A | a = b} := exist _ a eq_refl.

(** The outer [while i < len(lines)] of [parse_m3u], from the state
    [(i, seen_first_extinf, header_lines, entries)] to the returned pair. *)
Equations? parse_loop (lines : list text) (i : nat) (seen_first_extinf : bool)
    (header_lines : list text) (entries : list entry)
  : list text * list entry by wf (length lines - i) lt :=
parse_loop lines i seen header_lines entries with decide (i < length lines) => {
  | right _ => (header_lines, entries)
  | left _ with (negb seen && negb (startswith EXTINF (strip (lines !!! i)))) => {
      | true => parse_loop lines (S i) seen (header_lines ++ [lines !!! i]) entries
      | false with startswith EXTINF (strip (lines !!! i)) => {
          | true with inspect (scan_url lines (S i)) => {
              | exist _ (url_line, j) Hr with truthy url_line => {
                  | true => parse_loop lines (S j) true header_lines
                              (entries ++ [(lines !!! i, url_line)])
                  | false => parse_loop lines (S i) true header_lines entries } }
          | false => parse_loop lines (S i) seen header_lines entries } } }.
Proof.
  all: try lia.
  assert (Hge : ∀ ls k, k ≤ (scan_url ls k).2).
  { clear. intros ls k. funelim (scan_url ls k); simpl in *; lia. }
  specialize (Hge lines (S i)). rewrite Hr in Hge. simpl in Hge. lia.
Qed.

(** The pure part of [parse_m3u]: from the text of the file to the header
    lines and the entries. *)
Definition parse_text (content : text) : list text * list entry :=
  parse_loop (read_lines content) 0 false [] [].

(** ** Exceptions and results *)

(** The exceptions the program can meet.  [KeyboardInterrupt] and
    [SystemExit] derive from [BaseException] only; the others derive from
    [Exception]. *)
Inductive exn : Type :=
  | OSError
  | URLError
  | HTTPError
  | TimeoutError
  | ValueError
  | OtherException
  | KeyboardInterrupt
  | SystemExit (code : Z).

(** [isinstance(e, Exception)] *)
Definition is_Exception (e : exn) : bool :=
  match e with
  | KeyboardInterrupt | SystemExit _ => false
  | _ => true
  end.

(** [isinstance(e, (urllib.error.URLError, urllib.error.HTTPError, TimeoutError))] *)
Definition is_probe_error (e : exn) : bool :=
  match e with
  | URLError | HTTPError | TimeoutError => true
  | _ => false
  end.

Definition is_KeyboardInterrupt (e : exn) : bool :=
  match e with KeyboardInterrupt => true | _ => false end.

(** What a call ends with: a value, or a raised exception. *)
Inductive result (A : Type) : Type :=
  | Return (a : A)
  | Raise (e : exn).
Arguments Return {A} a.
Arguments Raise {A} e.

(** ** urllib.request.Request

    The constructor stores the URL through the [full_url] setter:
    [unwrap], [_splittag], then [_parse], which raises
    [ValueError("unknown url type: ...")] when [_splittype] finds no
    scheme.  The constructor then calls [request_host], which parses the
    URL and raises [ValueError] for a host part that is not well formed
    (an opening bracket without the closing one); of the two checks only
    the first is embedded here.  What is proved below uses [Request] in
    that direction only (no scheme, so [ValueError]), or takes its result
    as a hypothesis; the links of the runs shown have a plain host
    name. *)

Record request : Type := Build_request {
  full_url : text;
  headers : list (text * text)
}.

Definition LT : N := 60%N.
Definition GT : N := 62%N.
Definition COLON : N := 58%N.
Definition SLASH : N := 47%N.
Definition SHARP : N := 35%N.

(** [s[1:-1]] *)
Definition slice_inner (s : text) : text := reverse (drop 1 (reverse (drop 1 s))).

(** [urllib.parse.unwrap] *)
Definition unwrap (url : text) : text :=
  let url := strip url in
  let url :=
    if bool_decide (take 1 url = [LT]) && bool_decide (take 1 (reverse url) = [GT])
    then strip (slice_inner url) else url in
  if bool_decide (take 4 url = lit "URL:") then strip (drop 4 url) else url.

(** [url.rpartition('#')] inside [_splittag]: the part before the last
    '#', or the whole string without one. *)
Fixpoint before_last_sharp (s : text) : option text :=
  match s with
  | [] => None
  | c :: s' =>
      match before_last_sharp s' with
      | Some p => Some (c :: p)
      | None => if (c =? SHARP)%N then Some [] else None
      end
  end.

Definition splittag_path (url : text) : text :=
  match before_last_sharp url with Some p => p | None => url end.

(** [_splittype]: does the string start with a scheme, one or more
    characters other than '/' and ':' followed by ':'?  [seen] tells
    whether a character of the scheme was read already. *)
Fixpoint has_scheme (seen : bool) (s : text) : bool :=
  match s with
  | [] => false
  | c :: s' =>
      if (c =? COLON)%N then seen
      else if (c =? SLASH)%N then false
      else has_scheme true s'
  end.

(** [urllib.request.Request(url, headers=h)] *)
Definition Request (url : text) (h : list (text * text)) : result request :=
  let u := splittag_path (unwrap url) in
  if has_scheme false u then Return (Build_request u h) else Raise ValueError.

(** ** The world outside the process *)

(** What the process needs from outside: the network behind
    [urllib.request.urlopen] and the response it hands back, and the
    clock behind [time.sleep].  Each blocking call runs in the state [Env]
    of the outside world and may end by raising: an error of the network,
    or the [KeyboardInterrupt] of a user who interrupts the call. *)
Class Platform : Type := {
  Env : Type;
  Response : Type;
  urlopen : request → Q → Env → result Response * Env;
  status : Response → Z;
  read : Response → N → Env → result (list Byte.byte) * Env;
  close : Response → Env → Env;
  sleep : Q → Env → result () * Env
}.

(** What the process does that can be seen from outside, in order. *)
Inductive event : Type :=
  | Print (s : text)              (* print(s): s and a newline on standard output *)
  | Probe (url : text)            (* test_url(url) is entered *)
  | Sleep (seconds : Q)           (* time.sleep(seconds) *)
  | OpenWrite (path : text)       (* open(path, "w") *)
  | Write (path : text) (s : text).  (* f.write(s) on the file opened at path *)

Definition is_write (ev : event) : bool :=
  match ev with OpenWrite _ | Write _ _ => true | _ => false end.

(** The events of the validation loop proper: a probe, and the pause
    after it. *)
Definition is_validation (ev : event) : bool :=
  match ev with Probe _ | Sleep _ => true | _ => false end.

Definition probe_of (ev : event) : option text :=
  match ev with Probe u => Some u | _ => None end.

(** The URLs handed to [test_url], in order. *)
Definition probes (t : list event) : list text := omap probe_of t.

Section Program.

Context `{P : Platform}.

(** The state a run goes through: the files, the events so far, and the
    state of the outside world. *)
Record World : Type := Build_World {
  files : gmap text text;
  trace : list event;
  env : Env
}.

(** A computation: it runs in a world, and ends with a value or an
    exception, in a new world. *)
Definition M (A : Type) : Type := World → result A * World.

Definition ret {A} (a : A) : M A := λ w, (Return a, w).

Definition raise {A} (e : exn) : M A := λ w, (Raise e, w).

Definition bind {A B} (m : M A) (k : A → M B) : M B :=
  λ w, match m w with
       | (Return a, w') => k a w'
       | (Raise e, w') => (Raise e, w')
       end.

(** [try: m  except <class>: h], where [handler e] is the handler of the
    first clause that matches [e], if one does. *)
Definition try_except {A} (m : M A) (handler : exn → option (M A)) : M A :=
  λ w, match m w with
       | (Return a, w') => (Return a, w')
       | (Raise e, w') =>
           match handler e with
           | Some h => h w'
           | None => (Raise e, w')
           end
       end.

#[global] Instance M_ret : MRet M := @ret.
#[global] Instance M_bind : MBind M := λ A B k m, bind m k.

(** *** Primitive operations

    The operations on files and on standard output are given here as
    they go when nothing fails; how they fail (an error of the operating
    system, an interrupt) is added to them further down, with the program
    when an operation fails. *)

Definition emit (ev : event) : M () :=
  λ w, (Return (), Build_World (files w) (trace w ++ [ev]) (env w)).

(** A value computed by the library without touching the world. *)
Definition lift {A} (r : result A) : M A := λ w, (r, w).

(** A blocking call of the platform. *)
Definition call {A} (f : Env → result A * Env) : M A :=
  λ w, let '(r, e) := f (env w) in (r, Build_World (files w) (trace w) e).

(** [print(s)] *)
Definition print (s : text) : M () := emit (Print s).

(** [time.sleep(seconds)] *)
Definition time_sleep (seconds : Q) : M () :=
  emit (Sleep seconds) ;; call (sleep seconds).

(** [open(path, "r", encoding="utf-8", errors="ignore")] and the reading
    of the whole file: the text of the file, or [OSError] when there is
    no such file. *)
Definition read_text (path : text) : M text :=
  λ w, match files w !! path with
       | Some content => (Return content, w)
       | None => (Raise OSError, w)
       end.

(** [open(path, "w", encoding="utf-8")]: the file is created or emptied. *)
Definition open_write (path : text) : M () :=
  λ w, (Return (),
        Build_World (<[path := []]> (files w)) (trace w ++ [OpenWrite path]) (env w)).

(** [out.write(s)] on the file opened at [path]. *)
Definition write (path : text) (s : text) : M () :=
  λ w, (Return (),
        Build_World (<[path := default [] (files w !! path) ++ s]> (files w))
          (trace w ++ [Write path s]) (env w)).

(** [for x in xs: body(x)] *)
Fixpoint for_each {A} (xs : list A) (body : A → M ()) : M () :=
  match xs with
  | [] => ret ()
  | x :: xs' => body x ;; for_each xs' body
  end.

(** [str(n)] for an integer *)
Definition str_of_Z (z : Z) : text := lit (DecimalString.NilZero.string_of_int (Z.to_int z)).

(** *** parse_m3u *)

Definition parse_m3u (path : text) : M (list text * list entry) :=
  content ← read_text path;
  ret (parse_text content).

(** *** test_url *)

(** [with r as resp: body]: the response is closed when the block is
    left, by its end, by [return] or by an exception. *)
Definition with_response {A} (resp : Response) (body : M A) : M A :=
  λ w, let '(r, w') := body w in
       (r, Build_World (files w') (trace w') (close resp (env w'))).

Definition test_url (url : text) (timeout : Q) : M bool :=
  emit (Probe url) ;;
  req ← lift (Request url [(lit "User-Agent", lit "Mozilla/5.0 (Kodi-Check/1.0)")]);
  try_except
    (resp ← call (urlopen req timeout);
     with_response resp
       (if (status resp <? 200)%Z || (status resp >=? 300)%Z then ret false
        else
          chunk ← call (read resp 1024);
          if negb (truthy chunk) then ret false else ret true))
    (λ e, if is_probe_error e then Some (ret false)
          else if is_Exception e then Some (ret false)
          else None).

(** The default of [timeout]. *)
Definition default_timeout : Q := 5.

(** *** clean_m3u *)

(** [max_channels is not None and idx > max_channels] *)
Definition over_limit (max_channels : option Z) (idx : Z) : bool :=
  match max_channels with
  | Some k => (idx >? k)%Z
  | None => false
  end.

Definition ARROW : N := 8594%N.

(** The [for idx, (extinf, url) in enumerate(entries, start=1)] loop, at
    the entries still to visit; [n] is [len(entries)]. *)
Fixpoint clean_loop (n : nat) (max_channels : option Z) (idx : Z)
    (rest : list entry) (working_entries : list entry) : M (list entry) :=
  match rest with
  | [] => ret working_entries
  | (extinf, url) :: rest' =>
      if over_limit max_channels idx then ret working_entries
      else
        print (lit "[" ++ str_of_Z idx ++ lit "/" ++ str_of_Z (Z.of_nat n)
               ++ lit "] Testing: " ++ url) ;;
        ok ← test_url url default_timeout;
        working_entries ←
          (if ok : bool then
             print (lit "  " ++ [ARROW] ++ lit " OK") ;;
             ret (working_entries ++ [(extinf, url)])
           else
             print (lit "  " ++ [ARROW] ++ lit " FAILED") ;;
             ret working_entries);
        time_sleep (3 # 10) ;;
        clean_loop n max_channels (idx + 1) rest' working_entries
  end.

(** [if not header_lines or not header_lines[0].strip().startswith("#EXTM3U")] *)
Definition ensure_marker (header_lines : list text) : list text :=
  if negb (truthy header_lines)
     || negb (startswith EXTM3U (strip (header_lines !!! 0%nat)))
  then [EXTM3U] ++ header_lines
  else header_lines.

(** The [with open(output_path, "w", ...) as out] block. *)
Definition write_playlist (output_path : text) (header_lines : list text)
    (working_entries : list entry) : M () :=
  open_write output_path ;;
  for_each header_lines (λ line, write output_path (line ++ [LF])) ;;
  for_each working_entries (λ '(extinf, url),
    write output_path (extinf ++ [LF]) ;;
    write output_path (url ++ [LF])).

Definition clean_m3u (input_path output_path : text) (max_channels : option Z) : M () :=
  '(header_lines, entries) ← parse_m3u input_path;
  print (lit "Loaded " ++ str_of_Z (Z.of_nat (length entries))
         ++ lit " channels from " ++ input_path) ;;
  working_entries ← clean_loop (length entries) max_channels 1 entries [];
  print ([LF] ++ lit "Working channels: " ++ str_of_Z (Z.of_nat (length working_entries))) ;;
  let header_lines := ensure_marker header_lines in
  write_playlist output_path header_lines working_entries ;;
  print (lit "Cleaned playlist written to: " ++ output_path).

(** *** main *)

(** The namespace [parser.parse_args()] returns. *)
Record Args : Type := Build_Args {
  input : text;
  output : text;
  max_channels : option Z
}.

(** [sys.exit(code)] *)
Definition sys_exit {A} (code : Z) : M A := raise (SystemExit code).

(** [main], from the parsed arguments on: the [try] of its last lines.
    The parsing before it is in [main_F] further down. *)
Definition main (args : Args) : M () :=
  try_except
    (clean_m3u (input args) (output args) (max_channels args))
    (λ e, if is_KeyboardInterrupt e
          then Some (print ([LF] ++ lit "Interrupted by user.") ;; sys_exit 1)
          else None).

(** The exit status of the process that ran [main]: 0 at a normal end, the
    code of [sys.exit], 1 after an exception nobody caught. *)
Definition exit_status (r : result ()) : Z :=
  match r with
  | Return _ => 0
  | Raise (SystemExit code) => code
  | Raise _ => 1
  end.

(** *** What a run does *)

(** From [w] to [w'] the process made the events [evs] and left the files
    alone. *)
Definition steps (w w' : World) (evs : list event) : Prop :=
  files w' = files w ∧ trace w' = trace w ++ evs.

(** How far the loop may go: [m] entries from index [idx] on. *)
Definition within_limit (max_channels : option Z) (idx : Z) (m : nat) : Prop :=
  match max_channels with
  | Some k => m = 0 ∨ (idx + Z.of_nat m - 1 ≤ k)%Z
  | None => True
  end.

(** What a run of the loop amounts to: it visits the first [m] entries
    left, within the limit, hands their URL lines to [test_url] in order,
    writes nothing, and, when it ends normally, has appended some of the
    visited entries, in order, to the working entries; it ends with an
    exception only while it visits an entry. *)
Definition loop_post (max_channels : option Z) (idx : Z) (rest acc : list entry)
    (w : World) (out : result (list entry) * World) : Prop :=
  ∃ evs m,
    steps w out.2 evs
    ∧ Forall (λ ev, is_write ev = false) evs
    ∧ probes evs = (snd <$> take m rest)
    ∧ m ≤ length rest
    ∧ within_limit max_channels idx m
    ∧ match out.1 with
      | Return acc' => ∃ kept, acc' = acc ++ kept ∧ kept `sublist_of` take m rest
      | Raise _ => 0 < m
      end.

End Program.

(** ** The program when an operation fails

    The definitions above take the operations on files and on standard
    output to go through: the reading of the input file once it is found,
    [print], the opening of the output file and the writes to it; and
    [main] starts from the parsed arguments.  In the process each of them
    can end with an exception: an [OSError] of the operating system, the
    encoding error of a [print], the [KeyboardInterrupt] of a user.
    Below, the same program runs against a schedule that tells, for each
    of these operations in the order the run reaches them, what it ends
    with. *)

(** For each operation to come: the exception it ends with, or [None]
    when it goes through.  Past the end of the schedule every operation
    goes through. *)
Definition schedule : Type := list (option exn).

(** Nothing more goes wrong. *)
Definition faultless (sch : schedule) : Prop := Forall (λ f, f = None) sch.

Section Failing.

Context `{P : Platform}.

(** A computation that runs against a schedule and hands back what is
    left of it. *)
Definition F (A : Type) : Type := schedule → World → result A * World * schedule.

Definition fret {A} (a : A) : F A := λ sch w, (Return a, w, sch).

Definition fbind {A B} (m : F A) (k : A → F B) : F B :=
  λ sch w, match m sch w with
           | (Return a, w', sch') => k a sch' w'
           | (Raise e, w', sch') => (Raise e, w', sch')
           end.

Definition ftry_except {A} (m : F A) (handler : exn → option (F A)) : F A :=
  λ sch w, match m sch w with
           | (Return a, w', sch') => (Return a, w', sch')
           | (Raise e, w', sch') =>
               match handler e with
               | Some h => h sch' w'
               | None => (Raise e, w', sch')
               end
           end.

#[global] Instance F_ret : MRet F := @fret.
#[global] Instance F_bind : MBind F := λ A B k m, fbind m k.

(** An operation that can fail: it ends with the exception the schedule
    has for it, and then has done nothing, or it goes through as [m]. *)
Definition op {A} (m : M A) : F A :=
  λ sch w, match sch with
           | Some e :: sch' => (Raise e, w, sch')
           | None :: sch' => (m w, sch')
           | [] => (m w, [])
           end.

(** A computation that is left to the platform, which decides how its
    blocking calls end: [test_url] and [time.sleep]. *)
Definition plain {A} (m : M A) : F A := λ sch w, (m w, sch).

Definition parse_m3u_F (path : text) : F (list text * list entry) :=
  content ← op (read_text path);
  fret (parse_text content).

Fixpoint clean_loop_F (n : nat) (max_channels : option Z) (idx : Z)
    (rest : list entry) (working_entries : list entry) : F (list entry) :=
  match rest with
  | [] => fret working_entries
  | (extinf, url) :: rest' =>
      if over_limit max_channels idx then fret working_entries
      else
        op (print (lit "[" ++ str_of_Z idx ++ lit "/" ++ str_of_Z (Z.of_nat n)
                   ++ lit "] Testing: " ++ url)) ;;
        ok ← plain (test_url url default_timeout);
        working_entries ←
          (if ok : bool then
             op (print (lit "  " ++ [ARROW] ++ lit " OK")) ;;
             fret (working_entries ++ [(extinf, url)])
           else
             op (print (lit "  " ++ [ARROW] ++ lit " FAILED")) ;;
             fret working_entries);
        plain (time_sleep (3 # 10)) ;;
        clean_loop_F n max_channels (idx + 1) rest' working_entries
  end.

Fixpoint for_each_F {A} (xs : list A) (body : A → F ()) : F () :=
  match xs with
  | [] => fret ()
  | x :: xs' => body x ;; for_each_F xs' body
  end.

(** The [with open(output_path, "w", ...) as out] block: the file is
    closed when the block is left, also by an exception, and keeps what
    was written until then. *)
Definition write_playlist_F (output_path : text) (header_lines : list text)
    (working_entries : list entry) : F () :=
  op (open_write output_path) ;;
  for_each_F header_lines (λ line, op (write output_path (line ++ [LF]))) ;;
  for_each_F working_entries (λ '(extinf, url),
    op (write output_path (extinf ++ [LF])) ;;
    op (write output_path (url ++ [LF]))).

Definition clean_m3u_F (input_path output_path : text) (max_channels : option Z)
  : F () :=
  '(header_lines, entries) ← parse_m3u_F input_path;
  op (print (lit "Loaded " ++ str_of_Z (Z.of_nat (length entries))
             ++ lit " channels from " ++ input_path)) ;;
  working_entries ← clean_loop_F (length entries) max_channels 1 entries [];
  op (print ([LF] ++ lit "Working channels: "
             ++ str_of_Z (Z.of_nat (length working_entries)))) ;;
  let header_lines := ensure_marker header_lines in
  write_playlist_F output_path header_lines working_entries ;;
  op (print (lit "Cleaned playlist written to: " ++ output_path)).

(** [main] on a command line that parses to [args]: the building of the
    parser and [parser.parse_args()], then the [try]. *)
Definition main_F (args : Args) : F () :=
  args ← op (ret args);
  ftry_except
    (clean_m3u_F (input args) (output args) (max_channels args))
    (λ e, if is_KeyboardInterrupt e
          then Some (op (print ([LF] ++ lit "Interrupted by user.")) ;;
                     plain (sys_exit 1))
          else None).

(** *** What such a run does *)

(** [m] leaves the files alone and opens or writes none, however it
    ends. *)
Definition quiet {A} (m : F A) : Prop :=
  ∀ sch w, ∃ evs,
    steps w (m sch w).1.2 evs ∧ Forall (λ ev, is_write ev = false) evs.

(** From [w] to [w'], no file but the one at [path] has changed. *)
Definition only_at (path : text) (w w' : World) : Prop :=
  ∀ p, p ≠ path → files w' !! p = files w !! p.

(** [m] writes to the file at [path] and validates nothing, however it
    ends. *)
Definition writing {A} (path : text) (m : F A) : Prop :=
  ∀ sch w, ∃ wevs,
    trace (m sch w).1.2 = trace w ++ wevs
    ∧ Forall (λ ev, is_validation ev = false) wevs
    ∧ only_at path w (m sch w).1.2.

(** [m] validates first and writes then: the events before the first
    write event leave the files alone, from it on nothing is validated,
    and the file at [path] is the only one to change. *)
Definition validates_then_writes {A} (path : text) (m : F A) : Prop :=
  ∀ sch w, ∃ evs wevs,
    trace (m sch w).1.2 = trace w ++ evs ++ wevs
    ∧ Forall (λ ev, is_write ev = false) evs
    ∧ Forall (λ ev, is_validation ev = false) wevs
    ∧ only_at path w (m sch w).1.2
    ∧ (Forall (λ ev, is_write ev = false) wevs → files (m sch w).1.2 = files w).

(** The computation without failing operations that [mf] is when nothing
    is scheduled. *)
Definition agrees {A} (mf : F A) (m : M A) : Prop := ∀ w, mf [] w = (m w, []).

End Failing.

(** ** Playlist text *)

(** The lines [ls], each followed by the line ending [eol]. *)
Definition join_lines (eol : text) (ls : list text) : text :=
  concat ((λ l, l ++ eol) <$> ls).

(** The two lines of each entry, in order. *)
Definition entry_lines (es : list entry) : list text :=
  concat ((λ e : entry, [e.1; e.2]) <$> es).

(** The text [clean_m3u] writes for header lines and entries: every line
    followed by "\n". *)
Definition playlist_text (header_lines : list text) (es : list entry) : text :=
  join_lines [LF] (header_lines ++ entry_lines es).

(** The first header line [clean_m3u] writes. *)
Definition first_header (header_lines : list text) : text :=
  match header_lines with
  | [] => EXTM3U
  | h :: _ => if startswith EXTM3U (strip h) then h else EXTM3U
  end.

(** Does the header start with the marker: is there a first header line,
    and does its trimmed form start with "#EXTM3U"? *)
Definition has_marker (header_lines : list text) : bool :=
  match header_lines with
  | [] => false
  | h :: _ => startswith EXTM3U (strip h)
  end.

(** The first line of a text, without its "\n". *)
Fixpoint first_line (s : text) : text :=
  match s with
  | [] => []
  | c :: s' => if (c =? LF)%N then [] else c :: first_line s'
  end.

(** The parser on the lines of a file. *)
Definition parse_lines (lines : list text) : list text * list entry :=
  parse_loop lines 0 false [] [].

(** What the inner loop of the parser skips: a blank line or a comment. *)
Definition skipped (l : text) : bool :=
  bool_decide (strip l = []) || startswith HASH (strip l).

(** What the parser takes for a metadata line. *)
Definition is_extinf (l : text) : bool := startswith EXTINF (strip l).

(** A line without line-ending characters. *)
Definition clean_line (l : text) : Prop := (CR ∉ l) ∧ (LF ∉ l).

(** The invariant of an entry. *)
Definition entry_ok (e : entry) : Prop :=
  startswith EXTINF (strip e.1) = true
  ∧ e.2 ≠ []
  ∧ strip e.2 ≠ []
  ∧ startswith HASH (strip e.2) = false.

(** ** The course of the validation loop *)

(** The entries the loop visits when nothing cuts it short: all that are
    left, or those up to the position [max_channels]. *)
Definition visited (max_channels : option Z) (idx : Z) (rest : list entry)
  : list entry :=
  match max_channels with
  | Some k => take (Z.to_nat (k - idx + 1)) rest
  | None => rest
  end.

(** The line printed before a probe, and the one printed after it. *)
Definition testing_line (n : nat) (idx : Z) (url : text) : text :=
  lit "[" ++ str_of_Z idx ++ lit "/" ++ str_of_Z (Z.of_nat n)
  ++ lit "] Testing: " ++ url.

Definition verdict_line (ok : bool) : text :=
  if ok then lit "  " ++ [ARROW] ++ lit " OK"
  else lit "  " ++ [ARROW] ++ lit " FAILED".

(** The events of the visit of one entry with the verdict [ok], and of the
    visits of entries with their verdicts, from position [idx] on. *)
Definition visit_events (n : nat) (idx : Z) (en : entry) (ok : bool) : list event :=
  [Print (testing_line n idx en.2); Probe en.2; Print (verdict_line ok);
   Sleep (3 # 10)].

Fixpoint loop_events (n : nat) (idx : Z) (vs : list (entry * bool)) : list event :=
  match vs with
  | [] => []
  | (en, ok) :: vs' => visit_events n idx en ok ++ loop_events n (idx + 1) vs'
  end.

(** The entries whose verdict is true. *)
Definition kept_of (vs : list (entry * bool)) : list entry :=
  omap (λ v : entry * bool, if v.2 then Some v.1 else None) vs.

(** The probes and the pauses made, in order. *)
Definition validations (t : list event) : list event :=
  omap (λ ev, if is_validation ev then Some ev else None) t.

(** The headers [test_url] sends. *)
Definition user_agent : list (text * text) :=
  [(lit "User-Agent", lit "Mozilla/5.0 (Kodi-Check/1.0)")].

(** ** A platform to run the program on *)

(** The user's patience: [Some n] when the user interrupts the blocking
    call after [n] more of them, [None] when the user never does. *)
Definition interrupted (e : option nat) : bool :=
  match e with Some 0 => true | _ => false end.

Definition tick (e : option nat) : option nat := pred <$> e.

(** Three servers: one that answers 200 with data, one that answers 200
    with no data, and one that answers 404; every other host times out. *)
Definition demo_urlopen (req : request) (timeout : Q) (e : option nat)
  : result (Z * list Byte.byte) * option nat :=
  if interrupted e then (Raise KeyboardInterrupt, e)
  else if bool_decide (full_url req = lit "http://good.example/stream")
  then (Return (200%Z, [Byte.x47; Byte.x40]), tick e)
  else if bool_decide (full_url req = lit "http://empty.example/stream")
  then (Return (200%Z, []), tick e)
  else if bool_decide (full_url req = lit "http://gone.example/stream")
  then (Raise HTTPError, tick e)
  else (Raise TimeoutError, tick e).

Definition demo_sleep (seconds : Q) (e : option nat) : result () * option nat :=
  if interrupted e then (Raise KeyboardInterrupt, e) else (Return (), tick e).

Definition demo_platform : Platform := {|
  Env := option nat;
  Response := Z * list Byte.byte;
  urlopen := demo_urlopen;
  status := fst;
  read := λ resp n e, (Return (take (N.to_nat n) resp.2), e);
  close := λ _ e, e;
  sleep := demo_sleep
|}.

Definition demo_in : text := lit "in.m3u".
Definition demo_out : text := lit "out.m3u".

(** The playlist of the scenario: a header, a channel that answers and
    one that does not. *)
Definition demo_playlist : text := lit "#EXTM3U
#EXTINF:-1,Channel A
http://good.example/stream
#EXTINF:-1,Channel B
http://bad.example/stream".

Definition demo_world (content : text) (patience : option nat)
  : @World demo_platform :=
  @Build_World demo_platform {[ demo_in := content ]} [] patience.

(** A playlist whose first line carries attributes after the marker, and
    one whose first line is indented. *)
Definition attr_playlist : text := lit "#EXTM3U url-tvg=http://epg.example/guide.xml
#EXTINF:-1,Channel A
http://good.example/stream
".

Definition padded_playlist : text := lit "  #EXTM3U
#EXTINF:-1,Channel A
http://good.example/stream
".

(** A playlist without header. *)
Definition bare_playlist : text := lit "#EXTINF:-1,Channel A
http://good.example/stream
".

(** A playlist without any metadata line. *)
Definition plain_playlist : text := lit "#EXTM3U
# nothing but a comment and a link

http://good.example/stream".

(** Its lines that end with "\n", and its last line, which does not. *)
Definition plain_lines : list text :=
  [lit "#EXTM3U"; lit "# nothing but a comment and a link"; []].

Definition plain_last : text := lit "http://good.example/stream".

(** The lines of a small playlist, and the file that ends each of them
    with "\r\n". *)
Definition crlf_lines : list text :=
  [lit "#EXTM3U"; lit "#EXTINF:-1,Channel A"; lit "http://good.example/stream"].

Definition crlf_playlist : text := join_lines [CR; LF] crlf_lines.

(** A playlist with a link that has no scheme. *)
Definition local_playlist : text := lit "#EXTM3U
#EXTINF:-1,Local file
videos/local.ts
".

Definition demo_args : Args := Build_Args demo_in demo_out None.

(** A platform without network: every request ends with [URLError]. *)
Definition offline_platform : Platform := {|
  Env := ();
  Response := ();
  urlopen := λ _ _ e, (Raise URLError, e);
  status := λ _, 0%Z;
  read := λ _ _ e, (Return [], e);
  close := λ _ e, e;
  sleep := λ _ e, (Return (), e)
|}.

Definition offline_world (content : text) : @World offline_platform :=
  @Build_World offline_platform {[ demo_in := content ]} [] ().

(** The user interrupts the operation that the run reaches after [n]
    others; nothing else goes wrong. *)
Definition interrupt_at (n : nat) : schedule :=
  replicate n None ++ [Some KeyboardInterrupt].

(** The output file cannot be opened: the operation the run on the
    playlist of the scenario reaches after seven others. *)
Definition no_output : schedule := replicate 7 None ++ [Some OSError].

(** Arguments that name an input file the world does not have. *)
Definition missing_args : Args := Build_Args (lit "missing.m3u") demo_out None.

(** The request built for the server that answers. *)
Definition good_request : request :=
  Build_request (lit "http://good.example/stream") user_agent.

(** The header and the entry of a small regular playlist. *)
Definition regular_header : list text := [lit "#EXTM3U"; lit "# my channels"].

Definition regular_entries : list entry :=
  [(lit "#EXTINF:-1,Channel A", lit "http://good.example/stream");
   (lit "  #EXTINF:-1,Channel B", lit "http://bad.example/stream  ")].

(** A playlist with comments between a metadata line and its link, and
    with a second metadata line before the link. *)
Definition commented_lines : list text :=
  [lit "#EXTM3U"; lit "#EXTINF:-1,Channel A"; lit "#EXTVLCOPT:network-caching=1000";
   []; lit "#EXTINF:-1,Channel A again"; lit "http://good.example/stream";
   lit "trailing text"].

(** ** Facts about text *)

(** Closes the cases of [funelim] that the hypotheses [Hi] (the index is
    in range) and [Hx] (the test on the line) exclude. *)
Ltac other_branch Hx :=
  try done; try lia; try congruence;
  try (rewrite Hx, ?andb_false_r in *; simpl in *; congruence).

Lemma lstrip_by_stop p c s : p c = false → lstrip_by p (c :: s) = c :: s.
Proof. intros Hc. simpl. by rewrite Hc. Qed.

Lemma rstrip_by_snoc p s c : p c = true → rstrip_by p (s ++ [c]) = rstrip_by p s.
Proof.
  intros Hc. unfold rstrip_by. rewrite reverse_snoc. simpl. by rewrite Hc.
Qed.

Lemma rstrip_by_id p s : Forall (λ c, p c = false) s → rstrip_by p s = s.
Proof.
  intros Hs. unfold rstrip_by.
  assert (Hr : Forall (λ c, p c = false) (reverse s)) by by apply Forall_reverse.
  destruct (reverse s) as [|c r] eqn:E.
  - simpl. rewrite <- E. apply reverse_involutive.
  - rewrite lstrip_by_stop by by inversion Hr.
    rewrite <- E. apply reverse_involutive.
Qed.

Lemma rstrip_newline_id l : LF ∉ l → rstrip_newline l = l.
Proof.
  intros Hl. apply rstrip_by_id. apply Forall_forall. intros c Hc.
  destruct (N.eqb_spec LF c); [congruence | done].
Qed.

Lemma rstrip_newline_snoc l : LF ∉ l → rstrip_newline (l ++ [LF]) = l.
Proof.
  intros Hl. unfold rstrip_newline. rewrite rstrip_by_snoc by done.
  by apply rstrip_newline_id.
Qed.

Lemma strip_nil : strip [] = [].
Proof. reflexivity. Qed.

Lemma skipped_nonempty l : skipped l = false → l ≠ [].
Proof. intros H ->. discriminate H. Qed.

Lemma truthy_true {A} (s : list A) : truthy s = true ↔ s ≠ [].
Proof. destruct s; simpl; split; congruence. Qed.

Lemma startswith_app p q s : startswith (p ++ q) s = true → startswith p s = true.
Proof.
  revert s. induction p as [|a p IH]; intros s; [done|].
  destruct s as [|b s]; simpl; [done|].
  rewrite !andb_true_iff. intros [? ?]. eauto.
Qed.

Lemma is_extinf_skipped l : is_extinf l = true → skipped l = true.
Proof.
  unfold is_extinf, skipped. intros H.
  apply (startswith_app HASH (lit "EXTINF")) in H. rewrite H. apply orb_true_r.
Qed.

(** *** Universal newlines *)

Lemma universal_newlines_no_CR s : CR ∉ universal_newlines s.
Proof.
  assert (H : (CR ∉ universal_newlines s) ∧ ∀ c, CR ∉ universal_newlines (c :: s));
    [|by destruct H].
  induction s as [|d s [IH1 IH2]].
  - split; [apply not_elem_of_nil|]. intros c. simpl.
    destruct (N.eqb_spec c CR); rewrite not_elem_of_cons;
      (split; [done || discriminate | apply not_elem_of_nil]).
  - split; [apply IH2|]. intros c.
    change (universal_newlines (c :: d :: s)) with
      (if (c =? CR)%N
       then LF :: (if (d =? LF)%N then universal_newlines s else universal_newlines (d :: s))
       else c :: universal_newlines (d :: s)).
    destruct (N.eqb_spec c CR); rewrite not_elem_of_cons.
    + split; [discriminate|]. destruct (d =? LF)%N; [done | apply IH2].
    + split; [done | apply IH2].
Qed.

Lemma universal_newlines_id s : CR ∉ s → universal_newlines s = s.
Proof.
  induction s as [|c s IH]; [done|]. rewrite not_elem_of_cons. intros [Hc Hs].
  simpl. destruct (N.eqb_spec c CR); [congruence|]. by rewrite IH.
Qed.

Lemma universal_newlines_crlf l rest :
  CR ∉ l → universal_newlines (l ++ CR :: LF :: rest) = l ++ LF :: universal_newlines rest.
Proof.
  induction l as [|c l IH]; [done|]. rewrite not_elem_of_cons. intros [Hc Hl].
  change ((c :: l) ++ CR :: LF :: rest) with (c :: (l ++ CR :: LF :: rest)).
  cbn [universal_newlines]. destruct (N.eqb_spec c CR); [congruence|].
  by rewrite IH.
Qed.

Lemma universal_newlines_join_crlf ls :
  Forall clean_line ls → universal_newlines (join_lines [CR; LF] ls) = join_lines [LF] ls.
Proof.
  induction 1 as [|l ls [Hl _] _ IH]; [done|].
  unfold join_lines in *. cbn [fmap list_fmap concat].
  rewrite <- !app_assoc. cbn [app].
  rewrite universal_newlines_crlf by done. by rewrite IH.
Qed.

(** *** Lines *)

Lemma iter_lines_line l cur rest :
  LF ∉ l → iter_lines cur (l ++ LF :: rest) = (cur ++ l ++ [LF]) :: iter_lines [] rest.
Proof.
  revert cur. induction l as [|c l IH]; intros cur.
  - intros _. simpl. done.
  - rewrite not_elem_of_cons. intros [Hc Hl]. simpl.
    destruct (N.eqb_spec c LF); [congruence|].
    rewrite IH by done. by rewrite <- app_assoc.
Qed.

Lemma iter_lines_join ls :
  Forall (λ l, LF ∉ l) ls →
  iter_lines [] (join_lines [LF] ls) = (λ l, l ++ [LF]) <$> ls.
Proof.
  induction 1 as [|l ls Hl _ IH]; [done|].
  unfold join_lines in *. cbn [fmap list_fmap concat].
  rewrite <- app_assoc. cbn [app].
  rewrite iter_lines_line by done. by rewrite IH.
Qed.

Lemma join_lines_no_CR ls : Forall clean_line ls → CR ∉ join_lines [LF] ls.
Proof.
  induction 1 as [|l ls [Hl _] _ IH]; [apply not_elem_of_nil|].
  unfold join_lines in *. cbn [fmap list_fmap concat].
  rewrite !not_elem_of_app. repeat split; try done.
  rewrite not_elem_of_cons. split; [discriminate | apply not_elem_of_nil].
Qed.

(** Reading back lines written with "\n" gives the lines. *)
Lemma read_lines_join ls : Forall clean_line ls → read_lines (join_lines [LF] ls) = ls.
Proof.
  intros Hls. unfold read_lines.
  rewrite universal_newlines_id by by apply join_lines_no_CR.
  rewrite iter_lines_join by (eapply Forall_impl; [done | by intros ? [? ?]]).
  induction Hls as [|l ls [_ Hl] _ IH]; [done|].
  cbn [fmap list_fmap]. rewrite rstrip_newline_snoc by done. by f_equal.
Qed.

Lemma iter_lines_last cur l :
  LF ∉ l → cur ++ l ≠ [] → iter_lines cur l = [cur ++ l].
Proof.
  revert cur. induction l as [|c l IH]; intros cur Hl Hne.
  - rewrite app_nil_r in *. simpl. by destruct cur.
  - apply not_elem_of_cons in Hl as [Hc Hl]. simpl.
    destruct (N.eqb_spec c LF); [congruence|].
    rewrite IH; [by rewrite <- app_assoc | done |].
    rewrite <- app_assoc. by destruct cur.
Qed.

Lemma iter_lines_join_app ls tail :
  Forall (λ l, LF ∉ l) ls →
  iter_lines [] (join_lines [LF] ls ++ tail)
  = ((λ l, l ++ [LF]) <$> ls) ++ iter_lines [] tail.
Proof.
  induction 1 as [|l ls Hl _ IH]; [done|].
  change (join_lines [LF] (l :: ls)) with ((l ++ [LF]) ++ join_lines [LF] ls).
  rewrite <- !app_assoc. cbn [app].
  rewrite iter_lines_line by done. cbn [fmap list_fmap app]. by rewrite IH.
Qed.

(** A file whose last line has no line ending: the lines before it and
    that line. *)
Lemma read_lines_join_last ls l :
  Forall clean_line ls → clean_line l → l ≠ [] →
  read_lines (join_lines [LF] ls ++ l) = ls ++ [l].
Proof.
  intros Hls [HlCR HlLF] Hne. unfold read_lines. rewrite universal_newlines_id.
  - rewrite iter_lines_join_app
      by (eapply Forall_impl; [done | by intros ? [? ?]]).
    rewrite (iter_lines_last [] l) by done. cbn [app].
    rewrite fmap_app. cbn [fmap list_fmap]. rewrite rstrip_newline_id by done.
    f_equal. clear -Hls. induction Hls as [|x xs [_ Hx] _ IH]; [done|].
    cbn [fmap list_fmap]. rewrite rstrip_newline_snoc by done. by f_equal.
  - apply not_elem_of_app. split; [by apply join_lines_no_CR | done].
Qed.

(** Reading lines that end in "\r\n" gives the same lines. *)
Lemma read_lines_join_crlf ls :
  Forall clean_line ls → read_lines (join_lines [CR; LF] ls) = ls.
Proof.
  intros Hls. rewrite <- (read_lines_join ls) at 2 by done.
  unfold read_lines. rewrite universal_newlines_join_crlf by done.
  rewrite (universal_newlines_id (join_lines [LF] ls)); [done|].
  by apply join_lines_no_CR.
Qed.

Lemma iter_lines_chars s cur :
  LF ∉ cur →
  Forall (λ l, (LF ∉ rstrip_newline l) ∧ ∀ c, c ∈ rstrip_newline l → c ∈ cur ++ s)
    (iter_lines cur s).
Proof.
  revert cur. induction s as [|c s IH]; intros cur Hcur.
  - simpl. destruct cur as [|a cur]; [constructor|].
    constructor; [|constructor]. rewrite rstrip_newline_id by done.
    split; [done|]. intros c Hc. by rewrite app_nil_r.
  - simpl. destruct (N.eqb_spec c LF) as [->|Hc].
    + constructor.
      * rewrite rstrip_newline_snoc by done. split; [done|].
        intros c Hc. apply elem_of_app. by left.
      * eapply Forall_impl; [apply IH, not_elem_of_nil|].
        intros l [H1 H2]. split; [done|]. intros c Hc.
        apply elem_of_app. right. apply elem_of_cons. right. by apply H2.
    + eapply Forall_impl; [apply (IH (cur ++ [c]))|].
      * rewrite not_elem_of_app, not_elem_of_cons. repeat split; try done.
        apply not_elem_of_nil.
      * intros l [H1 H2]. split; [done|]. intros d Hd.
        specialize (H2 d Hd). by rewrite <- app_assoc in H2.
Qed.

(** No line of a file read in text mode holds a carriage return or a
    newline. *)
Lemma read_lines_clean content : Forall clean_line (read_lines content).
Proof.
  unfold read_lines. apply Forall_fmap.
  eapply Forall_impl; [apply iter_lines_chars, not_elem_of_nil|].
  intros l [H1 H2]. split; [|done]. intros HCR.
  apply H2 in HCR. by apply universal_newlines_no_CR in HCR.
Qed.

(** ** Facts about the parser *)

(** *** The search for the URL line *)

Lemma scan_url_done lines j : ¬ j < length lines → scan_url lines j = ([], j).
Proof. funelim (scan_url lines j); intros Hj; [done | lia | lia]. Qed.

Lemma scan_url_skip lines j :
  j < length lines → skipped (lines !!! j) = true →
  scan_url lines j = scan_url lines (S j).
Proof.
  funelim (scan_url lines j); intros Hj Hs; [lia | done |].
  unfold skipped in Hs. congruence.
Qed.

Lemma scan_url_found lines j :
  j < length lines → skipped (lines !!! j) = false →
  scan_url lines j = (lines !!! j, j).
Proof.
  funelim (scan_url lines j); intros Hj Hs; [lia | | done].
  unfold skipped in Hs. congruence.
Qed.

(** The line found is one the search does not skip; no line found means
    that the variable is still empty. *)
Lemma scan_url_result lines j :
  let '(u, k) := scan_url lines j in
  (u = [] ∧ Forall (λ l, skipped l = true) (drop j lines))
  ∨ (skipped u = false ∧ lines !! k = Some u ∧ j ≤ k
     ∧ Forall (λ l, skipped l = true) (take (k - j) (drop j lines))).
Proof.
  funelim (scan_url lines j).
  - left. split; [done|]. rewrite drop_ge by lia. constructor.
  - destruct (scan_url lines (S j)) as [u k] eqn:E.
    assert (Hd : drop j lines = lines !!! j :: drop (S j) lines).
    { apply drop_S. by apply list_lookup_lookup_total_lt. }
    destruct H as [[-> Hall]|(Hu & Hk & Hle & Hall)].
    + left. split; [done|]. rewrite Hd. by constructor.
    + right. repeat split; [done | done | lia |].
      rewrite Hd. replace (k - j) with (S (k - S j)) by lia.
      cbn [take]. by constructor.
  - right. repeat split; [done | | done |].
    + by apply list_lookup_lookup_total_lt.
    + rewrite Nat.sub_diag. constructor.
Qed.

Lemma scan_url_truthy lines j u k :
  scan_url lines j = (u, k) → truthy u = true →
  skipped u = false ∧ lines !! k = Some u ∧ j ≤ k.
Proof.
  intros E Ht. pose proof (scan_url_result lines j) as H. rewrite E in H.
  destruct H as [[-> _]|(? & ? & ? & _)]; [done | done].
Qed.

Lemma scan_url_falsy lines j u k :
  scan_url lines j = (u, k) → truthy u = false →
  Forall (λ l, skipped l = true) (drop j lines).
Proof.
  intros E Ht. pose proof (scan_url_result lines j) as H. rewrite E in H.
  destruct H as [[_ ?]|(Hu & _)]; [done|].
  apply skipped_nonempty, truthy_true in Hu. congruence.
Qed.

(** The search below a first line, and seen from the line it starts at. *)
Lemma scan_url_cons x lines j :
  scan_url (x :: lines) (S j) = ((scan_url lines j).1, S (scan_url lines j).2).
Proof.
  funelim (scan_url lines j).
  - by rewrite scan_url_done by (simpl; lia).
  - rewrite scan_url_skip; [apply H | simpl; lia |].
    change ((x :: lines) !!! S j) with (lines !!! j). exact Heq.
  - rewrite scan_url_found; [done | simpl; lia |].
    change ((x :: lines) !!! S j) with (lines !!! j). exact Heq.
Qed.

Lemma scan_url_drop lines j :
  scan_url lines j = ((scan_url (drop j lines) 0).1, j + (scan_url (drop j lines) 0).2).
Proof.
  revert lines. induction j as [|j IH]; intros lines.
  - rewrite drop_0. by destruct (scan_url lines 0).
  - destruct lines as [|x lines].
    + rewrite (scan_url_done [] (S j)) by (simpl; lia).
      cbn [drop]. rewrite (scan_url_done [] 0) by (simpl; lia).
      simpl. by rewrite Nat.add_0_r.
    + rewrite scan_url_cons, IH. done.
Qed.

Lemma scan_url_nil : scan_url [] 0 = ([], 0).
Proof. by rewrite scan_url_done by (simpl; lia). Qed.

Lemma scan_url_cons_skip x lines :
  skipped x = true →
  scan_url (x :: lines) 0 = ((scan_url lines 0).1, S (scan_url lines 0).2).
Proof.
  intros Hx. rewrite scan_url_skip; [apply scan_url_cons | simpl; lia | done].
Qed.

Lemma scan_url_cons_found x lines :
  skipped x = false → scan_url (x :: lines) 0 = (x, 0).
Proof. intros Hx. rewrite scan_url_found; [done | simpl; lia | done]. Qed.

(** *** One iteration of the outer loop, case by case *)

Lemma parse_loop_done lines i s h e :
  ¬ i < length lines → parse_loop lines i s h e = (h, e).
Proof. funelim (parse_loop lines i s h e); intros Hi; done || lia. Qed.

Lemma parse_loop_header lines i s h e :
  i < length lines → s = false → is_extinf (lines !!! i) = false →
  parse_loop lines i s h e = parse_loop lines (S i) false (h ++ [lines !!! i]) e.
Proof.
  unfold is_extinf.
  funelim (parse_loop lines i s h e); intros Hi -> Hx; other_branch Hx.
Qed.

Lemma parse_loop_other lines i s h e :
  i < length lines → s = true → is_extinf (lines !!! i) = false →
  parse_loop lines i s h e = parse_loop lines (S i) true h e.
Proof.
  unfold is_extinf.
  funelim (parse_loop lines i s h e); intros Hi -> Hx; other_branch Hx.
Qed.

Lemma parse_loop_entry lines i s h e u j :
  i < length lines → is_extinf (lines !!! i) = true →
  scan_url lines (S i) = (u, j) → truthy u = true →
  parse_loop lines i s h e = parse_loop lines (S j) true h (e ++ [(lines !!! i, u)]).
Proof.
  unfold is_extinf.
  funelim (parse_loop lines i s h e); intros Hi Hx Hs Ht; other_branch Hx.
Qed.

Lemma parse_loop_dangling lines i s h e u j :
  i < length lines → is_extinf (lines !!! i) = true →
  scan_url lines (S i) = (u, j) → truthy u = false →
  parse_loop lines i s h e = parse_loop lines (S i) true h e.
Proof.
  unfold is_extinf.
  funelim (parse_loop lines i s h e); intros Hi Hx Hs Ht; other_branch Hx.
Qed.

(** What every iteration keeps: header lines are not metadata lines,
    entries satisfy their invariant, and both are made of lines of the
    file ([Q] is any property of those lines). *)
Lemma parse_loop_invariant (Q : text → Prop) lines i s h e :
  Forall Q lines →
  Forall (λ l, is_extinf l = false ∧ Q l) h →
  Forall (λ en : entry, entry_ok en ∧ Q en.1 ∧ Q en.2) e →
  Forall (λ l, is_extinf l = false ∧ Q l) (parse_loop lines i s h e).1
  ∧ Forall (λ en : entry, entry_ok en ∧ Q en.1 ∧ Q en.2) (parse_loop lines i s h e).2.
Proof.
  funelim (parse_loop lines i s h e); intros HQ Hh He.
  - done.
  - apply H; [done | | done]. apply Forall_app. split; [done|].
    constructor; [|constructor].
    apply andb_true_iff in Heq as [_ Hx]. apply negb_true_iff in Hx.
    split; [done|]. eapply Forall_forall; [done|]. by apply list_elem_of_lookup_total_2.
  - by apply H.
  - apply H; [done | done |]. apply Forall_app. split; [done|].
    constructor; [|constructor].
    destruct (scan_url_truthy _ _ _ _ Hr Heq) as (Hu & Hk & _).
    assert (Hin : url_line ∈ lines) by (apply list_elem_of_lookup; eauto).
    assert (Hi : lines !!! i ∈ lines) by by apply list_elem_of_lookup_total_2.
    rewrite Forall_forall in HQ.
    split; [|by split; apply HQ].
    unfold skipped in Hu. apply orb_false_iff in Hu as [Hb Hc].
    apply bool_decide_eq_false in Hb.
    repeat split; simpl; [done | | done | done].
    intros ->. by apply Hb.
  - by apply H.
Qed.

(** *** The loop seen from the line it stands at *)

Lemma parse_loop_cons x lines i s h e :
  parse_loop (x :: lines) (S i) s h e = parse_loop lines i s h e.
Proof.
  funelim (parse_loop lines i s h e).
  - by rewrite parse_loop_done by (simpl; lia).
  - apply andb_true_iff in Heq as [Hs Hx].
    apply negb_true_iff in Hs, Hx. subst seen.
    rewrite parse_loop_header; [apply H | simpl; lia | done | exact Hx].
  - destruct seen; [|by rewrite Heq in Heq0].
    rewrite parse_loop_other; [apply H | simpl; lia | done | exact Heq].
  - rewrite (parse_loop_entry _ _ _ _ _ url_line (S j));
      [apply H | simpl; lia | exact Heq0 | | done].
    by rewrite scan_url_cons, Hr.
  - rewrite (parse_loop_dangling _ _ _ _ _ url_line (S j));
      [apply H | simpl; lia | exact Heq0 | | done].
    by rewrite scan_url_cons, Hr.
Qed.

Lemma parse_loop_drop lines i s h e :
  parse_loop lines i s h e = parse_loop (drop i lines) 0 s h e.
Proof.
  revert lines. induction i as [|i IH]; intros lines.
  - by rewrite drop_0.
  - destruct lines as [|x lines].
    + cbn [drop]. by rewrite !parse_loop_done by (simpl; lia).
    + by rewrite parse_loop_cons, IH.
Qed.

Lemma parse_nil s h e : parse_loop [] 0 s h e = (h, e).
Proof. by rewrite parse_loop_done by (simpl; lia). Qed.

Lemma parse_cons_header l ls h e :
  is_extinf l = false →
  parse_loop (l :: ls) 0 false h e = parse_loop ls 0 false (h ++ [l]) e.
Proof.
  intros Hl. rewrite parse_loop_header; [apply parse_loop_cons | simpl; lia | done | done].
Qed.

Lemma parse_cons_other l ls h e :
  is_extinf l = false →
  parse_loop (l :: ls) 0 true h e = parse_loop ls 0 true h e.
Proof.
  intros Hl. rewrite parse_loop_other; [apply parse_loop_cons | simpl; lia | done | done].
Qed.

Lemma parse_cons_entry m ls s h e u k :
  is_extinf m = true → scan_url ls 0 = (u, k) → truthy u = true →
  parse_loop (m :: ls) 0 s h e = parse_loop (drop (S k) ls) 0 true h (e ++ [(m, u)]).
Proof.
  intros Hm Hs Hu.
  rewrite (parse_loop_entry _ _ _ _ _ u (S k)); [| simpl; lia | done | | done].
  - by rewrite parse_loop_drop.
  - by rewrite scan_url_cons, Hs.
Qed.

Lemma parse_cons_dangling m ls s h e u k :
  is_extinf m = true → scan_url ls 0 = (u, k) → truthy u = false →
  parse_loop (m :: ls) 0 s h e = parse_loop ls 0 true h e.
Proof.
  intros Hm Hs Hu.
  rewrite (parse_loop_dangling _ _ _ _ _ u (S k)); [| simpl; lia | done | | done].
  - apply parse_loop_cons.
  - by rewrite scan_url_cons, Hs.
Qed.

(** *** Lines the parser passes over *)

Lemma scan_url_all_skipped ls :
  Forall (λ l, skipped l = true) ls → (scan_url ls 0).1 = [].
Proof.
  induction 1 as [|x ls Hx _ IH]; [by rewrite scan_url_nil|].
  by rewrite scan_url_cons_skip.
Qed.

Lemma scan_url_app_found pre tail u k :
  scan_url pre 0 = (u, k) → truthy u = true →
  scan_url (pre ++ tail) 0 = (u, k) ∧ k < length pre.
Proof.
  revert u k. induction pre as [|x pre IH]; intros u k Hs Hu.
  - rewrite scan_url_nil in Hs. by inversion Hs; subst.
  - destruct (skipped x) eqn:Hx.
    + rewrite scan_url_cons_skip in Hs by done.
      destruct (scan_url pre 0) as [u' k'] eqn:E. inversion Hs; subst.
      destruct (IH u k' eq_refl Hu) as [IH1 IH2].
      cbn [app]. rewrite scan_url_cons_skip by done. rewrite IH1.
      split; [done | simpl; lia].
    + rewrite scan_url_cons_found in Hs by done. inversion Hs; subst.
      cbn [app]. rewrite scan_url_cons_found by done. split; [done | simpl; lia].
Qed.

(** Blank lines and comments add no entry. *)
Lemma parse_skipped_entries tail s h e :
  Forall (λ l, skipped l = true) tail → (parse_loop tail 0 s h e).2 = e.
Proof.
  intros Ht. revert s h. induction Ht as [|x tail Hx Ht IH]; intros s h.
  - by rewrite parse_nil.
  - destruct (is_extinf x) eqn:Ex.
    + destruct (scan_url tail 0) as [u k] eqn:E.
      assert (Hu : truthy u = false).
      { pose proof (scan_url_all_skipped tail Ht) as Hn. rewrite E in Hn.
        simpl in Hn. by subst u. }
      rewrite (parse_cons_dangling _ _ _ _ _ u k) by done. apply IH.
    + destruct s.
      * rewrite parse_cons_other by done. apply IH.
      * rewrite parse_cons_header by done. apply IH.
Qed.

(** After the first metadata line, they add no header line either. *)
Lemma parse_skipped_seen tail h e :
  Forall (λ l, skipped l = true) tail → parse_loop tail 0 true h e = (h, e).
Proof.
  induction 1 as [|x tail Hx Ht IH]; [by rewrite parse_nil|].
  destruct (is_extinf x) eqn:Ex.
  - destruct (scan_url tail 0) as [u k] eqn:E.
    assert (Hu : truthy u = false).
    { pose proof (scan_url_all_skipped tail Ht) as Hn. rewrite E in Hn.
      simpl in Hn. by subst u. }
    by rewrite (parse_cons_dangling _ _ _ _ _ u k).
  - by rewrite parse_cons_other.
Qed.

(** Blank lines and comments at the end of a file change no entry. *)
Lemma parse_app_skipped pre tail s h e :
  Forall (λ l, skipped l = true) tail →
  (parse_loop (pre ++ tail) 0 s h e).2 = (parse_loop pre 0 s h e).2.
Proof.
  intros Ht. remember (length pre) as n eqn:Hn.
  revert pre Hn s h e. induction n as [n IH] using lt_wf_ind.
  intros [|x pre] Hn s h e.
  - rewrite parse_nil. by apply parse_skipped_entries.
  - simpl in Hn. cbn [app]. destruct (is_extinf x) eqn:Ex.
    + destruct (scan_url pre 0) as [u k] eqn:E. destruct (truthy u) eqn:Hu.
      * destruct (scan_url_app_found pre tail u k E Hu) as [E' Hk].
        rewrite (parse_cons_entry _ _ _ _ _ u k) by done.
        rewrite (parse_cons_entry x pre _ _ _ u k) by done.
        rewrite drop_app_le by lia.
        eapply IH; [|done]. rewrite length_drop. lia.
      * destruct (scan_url (pre ++ tail) 0) as [u' k'] eqn:E'.
        assert (Hu' : truthy u' = false).
        { assert (Hall : Forall (λ l, skipped l = true) (pre ++ tail)).
          { apply Forall_app. split; [|done].
            apply (scan_url_falsy pre 0 u k) in E; [|done]. by rewrite drop_0 in E. }
          apply scan_url_all_skipped in Hall. rewrite E' in Hall.
          simpl in Hall. by subst u'. }
        rewrite (parse_cons_dangling _ _ _ _ _ u' k') by done.
        rewrite (parse_cons_dangling x pre _ _ _ u k) by done.
        eapply IH; [|done]. lia.
    + destruct s.
      * rewrite !parse_cons_other by done. eapply IH; [|done]. lia.
      * rewrite !parse_cons_header by done. eapply IH; [|done]. lia.
Qed.

(** *** Lines the parser keeps *)

Lemma parse_header_lines hs rest h e :
  Forall (λ l, is_extinf l = false) hs →
  parse_loop (hs ++ rest) 0 false h e = parse_loop rest 0 false (h ++ hs) e.
Proof.
  intros Hhs. revert h. induction Hhs as [|x hs Hx _ IH]; intros h.
  - by rewrite app_nil_r.
  - cbn [app]. rewrite parse_cons_header by done. rewrite IH.
    by rewrite <- app_assoc.
Qed.

Lemma entry_ok_not_skipped (en : entry) : entry_ok en → skipped en.2 = false.
Proof.
  intros (_ & _ & Hb & Hc). unfold skipped. rewrite Hc.
  by rewrite bool_decide_eq_false_2.
Qed.

Lemma parse_entry_lines es s h e :
  Forall entry_ok es → parse_loop (entry_lines es) 0 s h e = (h, e ++ es).
Proof.
  intros Hes. revert s e. induction Hes as [|[m u] es Hen _ IH]; intros s e.
  - unfold entry_lines. simpl. by rewrite parse_nil, app_nil_r.
  - change (entry_lines ((m, u) :: es)) with (m :: u :: entry_lines es).
    pose proof (entry_ok_not_skipped _ Hen) as Hu. simpl in Hu.
    destruct Hen as (Hm & Hne & _). simpl in Hm, Hne.
    rewrite (parse_cons_entry _ _ _ _ _ u 0);
      [| done | by apply scan_url_cons_found | by apply truthy_true].
    cbn [drop]. rewrite IH. by rewrite <- app_assoc.
Qed.

(** Header lines followed by the lines of entries parse to themselves. *)
Lemma parse_lines_playlist hs es :
  Forall (λ l, is_extinf l = false) hs → Forall entry_ok es →
  parse_lines (hs ++ entry_lines es) = (hs, es).
Proof.
  intros Hhs Hes. unfold parse_lines.
  rewrite parse_header_lines by done. by rewrite parse_entry_lines.
Qed.

Lemma entry_lines_Forall (Q : text → Prop) es :
  Forall (λ en : entry, Q en.1 ∧ Q en.2) es → Forall Q (entry_lines es).
Proof.
  induction 1 as [|[m u] es [H1 H2] _ IH]; [constructor|].
  change (entry_lines ((m, u) :: es)) with (m :: u :: entry_lines es).
  by repeat constructor.
Qed.

(** What [parse_text] returns, for every text. *)
Lemma parse_text_invariant content :
  Forall (λ l, is_extinf l = false ∧ clean_line l) (parse_text content).1
  ∧ Forall (λ en : entry, entry_ok en ∧ clean_line en.1 ∧ clean_line en.2)
      (parse_text content).2.
Proof.
  unfold parse_text.
  apply parse_loop_invariant; [apply read_lines_clean | constructor | constructor].
Qed.

Lemma parse_text_roundtrip content :
  parse_text (playlist_text (parse_text content).1 (parse_text content).2)
  = parse_text content.
Proof.
  destruct (parse_text_invariant content) as [Hh He].
  destruct (parse_text content) as [hs es]. simpl in *.
  unfold parse_text at 1, playlist_text.
  rewrite read_lines_join.
  - apply parse_lines_playlist.
    + eapply Forall_impl; [done | by intros ? [? ?]].
    + eapply Forall_impl; [done | by intros ? [? ?]].
  - apply Forall_app. split.
    + eapply Forall_impl; [done | by intros ? [? ?]].
    + apply entry_lines_Forall. eapply Forall_impl; [done | by intros ? (? & ? & ?)].
Qed.

(** ** Facts about runs *)

Section Runs.

Context `{P : Platform}.

Lemma steps_refl w : steps w w [].
Proof. split; [done | by rewrite app_nil_r]. Qed.

Lemma steps_trans w1 w2 w3 evs1 evs2 :
  steps w1 w2 evs1 → steps w2 w3 evs2 → steps w1 w3 (evs1 ++ evs2).
Proof.
  intros [F1 T1] [F2 T2]. split; [congruence|].
  by rewrite T2, T1, app_assoc.
Qed.

Lemma bind_run {A B} (m : M A) (k : A → M B) w :
  (m ≫= k) w = match m w with
               | (Return a, w') => k a w'
               | (Raise e, w') => (Raise e, w')
               end.
Proof. reflexivity. Qed.

Lemma print_run s w :
  print s w = (Return (), Build_World (files w) (trace w ++ [Print s]) (env w)).
Proof. reflexivity. Qed.

Lemma time_sleep_steps d w : steps w (time_sleep d w).2 [Sleep d].
Proof.
  unfold time_sleep, call, emit. unfold mbind, M_bind, bind. simpl.
  by destruct (sleep d (env w)) as [r e].
Qed.

(** *** test_url *)

(** A call of [test_url] is one event and touches no file, however it
    ends. *)
Lemma test_url_steps url timeout w : steps w (test_url url timeout w).2 [Probe url].
Proof.
  unfold test_url, try_except, with_response, call, lift, emit, ret.
  unfold mbind, M_bind, bind. simpl.
  destruct (Request url _) as [req|e]; [|done].
  destruct (urlopen req timeout (env w)) as [[resp|e] e1]; simpl.
  - destruct ((status resp <? 200)%Z || (status resp >=? 300)%Z); [done|].
    simpl. destruct (read resp 1024 e1) as [[chunk|e] e2]; simpl.
    + by destruct (negb (truthy chunk)).
    + by destruct (is_probe_error e), (is_Exception e).
  - by destruct (is_probe_error e), (is_Exception e).
Qed.

(** The constructor of the request runs before the [try]: what it raises
    leaves [test_url]. *)
Lemma test_url_Request_raises url timeout w e :
  Request url [(lit "User-Agent", lit "Mozilla/5.0 (Kodi-Check/1.0)")] = Raise e →
  (test_url url timeout w).1 = Raise e.
Proof.
  intros HR. unfold test_url, lift, emit. unfold mbind, M_bind, bind. simpl.
  by rewrite HR.
Qed.

(** Behind the constructor, the verdict of [test_url]: true for a status
    in [200, 300) and a first read that is not empty, false for every
    other answer and for every exception of class [Exception]; an
    exception outside that class (an interrupt) leaves [test_url]. *)
Lemma test_url_guarded url timeout w req :
  Request url [(lit "User-Agent", lit "Mozilla/5.0 (Kodi-Check/1.0)")] = Return req →
  (test_url url timeout w).1 =
    match urlopen req timeout (env w) with
    | (Return resp, e1) =>
        if (status resp <? 200)%Z || (status resp >=? 300)%Z then Return false
        else match read resp 1024 e1 with
             | (Return chunk, _) => Return (truthy chunk)
             | (Raise e, _) => if is_Exception e then Return false else Raise e
             end
    | (Raise e, _) => if is_Exception e then Return false else Raise e
    end.
Proof.
  intros HR. unfold test_url, try_except, with_response, call, lift, emit, ret.
  unfold mbind, M_bind, bind. simpl. rewrite HR.
  destruct (urlopen req timeout (env w)) as [[resp|e] e1]; simpl.
  - destruct ((status resp <? 200)%Z || (status resp >=? 300)%Z); [done|].
    simpl. destruct (read resp 1024 e1) as [[chunk|e] e2]; simpl.
    + by destruct chunk.
    + by destruct e.
  - by destruct e.
Qed.

(** *** The validation loop *)

Lemma clean_loop_run n max_channels rest : ∀ idx acc w,
  loop_post max_channels idx rest acc w (clean_loop n max_channels idx rest acc w).
Proof.
  induction rest as [|[extinf url] rest IH]; intros idx acc w.
  - exists [], 0. simpl. split_and!; try done.
    + apply steps_refl.
    + by destruct max_channels; [left|].
    + exists []. by rewrite app_nil_r.
  - cbn [clean_loop]. destruct (over_limit max_channels idx) eqn:Hlim.
    { exists [], 0. simpl. split_and!; try done.
      + apply steps_refl.
      + lia.
      + by destruct max_channels; [left|].
      + exists []. split; [by rewrite app_nil_r | constructor]. }
    assert (Hone : within_limit max_channels idx 1).
    { unfold within_limit, over_limit in *. destruct max_channels as [k|]; [|done].
      right. lia. }
    rewrite bind_run, print_run.
    set (w1 := Build_World _ _ _).
    assert (S1 : steps w w1 [Print (lit "[" ++ str_of_Z idx ++ lit "/"
                  ++ str_of_Z (Z.of_nat n) ++ lit "] Testing: " ++ url)]) by done.
    rewrite bind_run.
    pose proof (test_url_steps url default_timeout w1) as S2.
    destruct (test_url url default_timeout w1) as [[ok|e] w2]; simpl in S2.
    2:{ eexists _, 1. simpl. split; [exact (steps_trans _ _ _ _ _ S1 S2)|].
        split_and!; try done; [by repeat constructor | lia | lia]. }
    rewrite bind_run.
    set (acc' := if ok then acc ++ [(extinf, url)] else acc).
    set (verdict := if ok then lit "  " ++ [ARROW] ++ lit " OK"
                    else lit "  " ++ [ARROW] ++ lit " FAILED").
    set (w3 := Build_World (files w2) (trace w2 ++ [Print verdict]) (env w2)).
    assert (E3 : (if ok
                  then print (lit "  " ++ [ARROW] ++ lit " OK") ≫=
                       (λ _, ret (acc ++ [(extinf, url)]))
                  else print (lit "  " ++ [ARROW] ++ lit " FAILED") ≫=
                       (λ _, ret acc)) w2 = (Return acc', w3)).
    { subst acc' verdict w3. by destruct ok. }
    rewrite E3. clear E3.
    assert (S3 : steps w2 w3 [Print verdict]) by done.
    rewrite bind_run.
    pose proof (time_sleep_steps (3 # 10) w3) as S4.
    destruct (time_sleep (3 # 10) w3) as [[[]|e] w4]; simpl in S4.
    2:{ eexists _, 1. simpl.
        split; [exact (steps_trans _ _ _ _ _ S1
                         (steps_trans _ _ _ _ _ S2 (steps_trans _ _ _ _ _ S3 S4)))|].
        split_and!; try done; [by repeat constructor | lia | lia]. }
    destruct (IH (idx + 1)%Z acc' w4) as (evs & m & S5 & Hw & Hp & Hm & Hl & Hr).
    eexists _, (S m). simpl.
    split; [exact (steps_trans _ _ _ _ _ S1 (steps_trans _ _ _ _ _ S2
                     (steps_trans _ _ _ _ _ S3 (steps_trans _ _ _ _ _ S4 S5))))|].
    split_and!.
    + by repeat constructor.
    + simpl. by rewrite Hp.
    + lia.
    + unfold within_limit in *. destruct max_channels as [k|]; [|done].
      right. unfold over_limit in Hlim. destruct Hl as [->|Hl]; lia.
    + destruct (clean_loop n max_channels (idx + 1) rest acc' w4) as [[acc''|e] w5];
        [|simpl; lia].
      simpl in Hr. destruct Hr as (kept & -> & Hsub).
      subst acc'. destruct ok.
      * exists ((extinf, url) :: kept). split; [by rewrite <- app_assoc|].
        by apply sublist_skip.
      * exists kept. split; [done|]. by apply sublist_cons.
Qed.

(** *** Writing the playlist *)

Lemma join_lines_app eol ls1 ls2 :
  join_lines eol (ls1 ++ ls2) = join_lines eol ls1 ++ join_lines eol ls2.
Proof. unfold join_lines. by rewrite fmap_app, concat_app. Qed.

Lemma write_run path s w :
  write path s w =
    (Return (), Build_World (<[path := default [] (files w !! path) ++ s]> (files w))
                  (trace w ++ [Write path s]) (env w)).
Proof. reflexivity. Qed.

Lemma write_lines_run path ls w c :
  files w !! path = Some c →
  ∃ wevs,
    for_each ls (λ line, write path (line ++ [LF])) w
    = (Return (), Build_World (<[path := c ++ join_lines [LF] ls]> (files w))
                    (trace w ++ wevs) (env w))
    ∧ Forall (λ ev, is_validation ev = false) wevs.
Proof.
  revert w c. induction ls as [|l ls IH]; intros w c Hc.
  - exists []. split; [|constructor]. simpl. unfold ret. f_equal.
    rewrite !app_nil_r, insert_id by done. by destruct w.
  - cbn [for_each]. rewrite bind_run, write_run, Hc. cbn [default]. unfold id.
    edestruct (IH (Build_World (<[path := c ++ l ++ [LF]]> (files w))
                     (trace w ++ [Write path (l ++ [LF])]) (env w)) (c ++ l ++ [LF]))
      as (wevs & E & Hw); [apply lookup_insert_eq|].
    exists (Write path (l ++ [LF]) :: wevs). split; [|by constructor].
    rewrite E. cbn [files trace env]. f_equal. f_equal.
    + rewrite insert_insert_eq. f_equal.
      change (join_lines [LF] (l :: ls)) with ((l ++ [LF]) ++ join_lines [LF] ls).
      by rewrite <- !app_assoc.
    + by rewrite <- app_assoc.
Qed.

Lemma write_entries_run path es w c :
  files w !! path = Some c →
  ∃ wevs,
    for_each es (λ '(extinf, url),
      write path (extinf ++ [LF]) ;; write path (url ++ [LF])) w
    = (Return (), Build_World (<[path := c ++ join_lines [LF] (entry_lines es)]> (files w))
                    (trace w ++ wevs) (env w))
    ∧ Forall (λ ev, is_validation ev = false) wevs.
Proof.
  revert w c. induction es as [|[extinf url] es IH]; intros w c Hc.
  - exists []. split; [|constructor]. simpl. unfold ret. f_equal.
    rewrite !app_nil_r, insert_id by done. by destruct w.
  - cbn [for_each]. rewrite !bind_run, !write_run, Hc. cbn [default files trace env].
    rewrite lookup_insert_eq. cbn [default]. unfold id. rewrite insert_insert_eq.
    edestruct (IH (Build_World (<[path := (c ++ extinf ++ [LF]) ++ url ++ [LF]]> (files w))
                     ((trace w ++ [Write path (extinf ++ [LF])])
                        ++ [Write path (url ++ [LF])]) (env w))
                 ((c ++ extinf ++ [LF]) ++ url ++ [LF]))
      as (wevs & E & Hw); [apply lookup_insert_eq|].
    exists (Write path (extinf ++ [LF]) :: Write path (url ++ [LF]) :: wevs).
    split; [|by repeat constructor].
    rewrite E. cbn [files trace env]. f_equal. f_equal.
    + rewrite insert_insert_eq. f_equal.
      change (join_lines [LF] (entry_lines ((extinf, url) :: es)))
        with ((extinf ++ [LF]) ++ (url ++ [LF]) ++ join_lines [LF] (entry_lines es)).
      by rewrite <- !app_assoc.
    + by rewrite <- !app_assoc.
Qed.

(** The [with open(...)] block leaves, at the output path, the header
    lines and the two lines of each entry, each followed by "\n". *)
Lemma write_playlist_run path hs es w :
  ∃ wevs,
    write_playlist path hs es w
    = (Return (), Build_World (<[path := playlist_text hs es]> (files w))
                    (trace w ++ OpenWrite path :: wevs) (env w))
    ∧ Forall (λ ev, is_validation ev = false) wevs.
Proof.
  unfold write_playlist. rewrite bind_run. cbn [open_write].
  set (w1 := Build_World _ _ _).
  destruct (write_lines_run path hs w1 []) as (wevs1 & E1 & H1);
    [apply lookup_insert_eq|].
  rewrite bind_run, E1. cbn [files trace env w1].
  rewrite insert_insert_eq. cbn [app].
  set (w2 := Build_World _ _ _).
  destruct (write_entries_run path es w2 (join_lines [LF] hs)) as (wevs2 & E2 & H2);
    [apply lookup_insert_eq|].
  exists (wevs1 ++ wevs2). split; [|by apply Forall_app].
  etrans; [exact E2|]. cbn [files trace env w2]. rewrite insert_insert_eq.
  unfold playlist_text. rewrite join_lines_app. f_equal. f_equal.
  by rewrite <- !app_assoc.
Qed.

(** *** clean_m3u *)

Lemma probes_app t1 t2 : probes (t1 ++ t2) = probes t1 ++ probes t2.
Proof. apply omap_app. Qed.

Lemma probes_no_validation t :
  Forall (λ ev, is_validation ev = false) t → probes t = [].
Proof. induction 1 as [|[] t Hev _ IH]; simpl in *; done. Qed.

Lemma parse_m3u_run path w content :
  files w !! path = Some content →
  parse_m3u path w = (Return (parse_text content), w).
Proof. intros Hc. unfold parse_m3u, read_text. rewrite bind_run. by rewrite Hc. Qed.

Lemma parse_m3u_no_file path w :
  files w !! path = None → parse_m3u path w = (Raise OSError, w).
Proof. intros Hc. unfold parse_m3u, read_text. rewrite bind_run. by rewrite Hc. Qed.

(** Without its input file, [clean_m3u] ends with the error of [open]. *)
Lemma clean_m3u_no_input input_path output_path max_channels w :
  files w !! input_path = None →
  clean_m3u input_path output_path max_channels w = (Raise OSError, w).
Proof.
  intros Hc. unfold clean_m3u. rewrite bind_run. by rewrite parse_m3u_no_file.
Qed.

(** A run of [clean_m3u] on an input file: the validation visits the
    first [m] entries, within the limit, and writes nothing; it ends with
    an exception, or the playlist is written with the header (marker
    ensured) and some of the visited entries, in order, and nothing is
    validated after the output file is opened. *)
Lemma clean_m3u_run input_path output_path max_channels w content :
  files w !! input_path = Some content →
  ∃ evs m,
    Forall (λ ev, is_write ev = false) evs
    ∧ probes evs = (snd <$> take m (parse_text content).2)
    ∧ m ≤ length (parse_text content).2
    ∧ within_limit max_channels 1 m
    ∧ match (clean_m3u input_path output_path max_channels w).1 with
      | Raise _ =>
          0 < m ∧ steps w (clean_m3u input_path output_path max_channels w).2 evs
      | Return _ =>
          ∃ kept wevs,
            kept `sublist_of` take m (parse_text content).2
            ∧ Forall (λ ev, is_validation ev = false) wevs
            ∧ files (clean_m3u input_path output_path max_channels w).2
              = <[output_path := playlist_text (ensure_marker (parse_text content).1) kept]>
                  (files w)
            ∧ trace (clean_m3u input_path output_path max_channels w).2
              = trace w ++ evs ++ OpenWrite output_path :: wevs
      end.
Proof.
  intros Hc. unfold clean_m3u. rewrite bind_run, (parse_m3u_run _ _ content) by done.
  destruct (parse_text content) as [hs es]. cbn [fst snd].
  rewrite bind_run, print_run. set (w1 := Build_World _ _ _).
  rewrite bind_run.
  destruct (clean_loop_run (length es) max_channels es 1 [] w1)
    as (evs & m & [F2 T2] & Hw & Hp & Hm & Hl & Hr).
  destruct (clean_loop (length es) max_channels 1 es [] w1) as [[acc|e] w2];
    cbn [fst snd] in *.
  - destruct Hr as (kept & -> & Hsub). cbn [app].
    rewrite bind_run, print_run. set (w3 := Build_World _ _ _).
    destruct (write_playlist_run output_path (ensure_marker hs) kept w3)
      as (wevs & E & Hv).
    rewrite bind_run, E, print_run. cbn [fst snd files trace env w3].
    exists (Print (lit "Loaded " ++ str_of_Z (Z.of_nat (length es))
                   ++ lit " channels from " ++ input_path)
            :: evs ++ [Print ([LF] ++ lit "Working channels: "
                              ++ str_of_Z (Z.of_nat (length kept)))]), m.
    split_and!; [| | done | done |].
    + constructor; [done|]. apply Forall_app. split; [done | by repeat constructor].
    + change (probes (?a :: ?t)) with (probes t).
      rewrite probes_app. simpl. by rewrite app_nil_r.
    + exists kept, (wevs ++ [Print (lit "Cleaned playlist written to: " ++ output_path)]).
      split_and!; [done | | by rewrite F2 | ].
      * apply Forall_app. split; [done | by repeat constructor].
      * rewrite T2. cbn [trace w1]. rewrite <- !app_assoc. cbn [app].
        by rewrite <- !app_assoc.
  - exists (Print (lit "Loaded " ++ str_of_Z (Z.of_nat (length es))
                   ++ lit " channels from " ++ input_path) :: evs), m.
    split_and!; try done.
    + by constructor.
    + split; [by rewrite F2|]. rewrite T2. cbn [trace w1].
      by rewrite <- app_assoc.
Qed.

(** ** The parser: properties *)

(** C6: every entry that [parse_m3u] produces has a metadata line whose
    trimmed form starts with "#EXTINF" and a URL line that is not empty
    and whose trimmed form is neither blank nor a comment; [parse_m3u]
    returns for every file there is, and fails only for want of one. *)
Theorem parse_m3u_entry_invariant (path : text) (w : World) :
  match (parse_m3u path w).1 with
  | Return r => Forall entry_ok r.2
  | Raise e => e = OSError ∧ files w !! path = None
  end.
Proof.
  destruct (files w !! path) as [content|] eqn:Hc.
  - rewrite (parse_m3u_run _ _ content) by done. simpl.
    destruct (parse_text_invariant content) as [_ He].
    eapply Forall_impl; [done | by intros ? (? & _)].
  - by rewrite parse_m3u_no_file.
Qed.

(** C5: the header lines and entries parsed from a playlist, written back
    as text (the header lines, then the metadata line and the URL line of
    each entry, each followed by a newline), parse to the same header
    lines and entries, as text and through the file the program writes. *)
Theorem parse_m3u_roundtrip (content : text) (path : text) (w : World) :
  let hs := (parse_text content).1 in
  let es := (parse_text content).2 in
  parse_text (playlist_text hs es) = (hs, es)
  ∧ parse_m3u path (write_playlist path hs es w).2
    = (Return (hs, es), (write_playlist path hs es w).2).
Proof.
  intros hs es.
  assert (Hrt : parse_text (playlist_text hs es) = (hs, es)).
  { subst hs es. rewrite parse_text_roundtrip. by destruct (parse_text content). }
  split; [done|].
  destruct (write_playlist_run path hs es w) as (wevs & E & _). rewrite E.
  cbn [snd]. rewrite (parse_m3u_run _ _ (playlist_text hs es)).
  - by rewrite Hrt.
  - apply lookup_insert_eq.
Qed.

(** C7: a metadata line followed only by blank lines and comments up to
    the end of the file gives no entry: the loop goes on at the next line
    with its header lines and entries as they were, ends with them, and
    the entries of the file are those of the lines before the metadata
    line. *)
Theorem parse_m3u_dangling_extinf (pre : list text) (m : text) (tail : list text)
    (s : bool) (h : list text) (e : list entry) :
  is_extinf m = true →
  Forall (λ l, skipped l = true) tail →
  parse_loop (pre ++ m :: tail) (length pre) s h e
  = parse_loop (pre ++ m :: tail) (S (length pre)) true h e
  ∧ parse_loop (pre ++ m :: tail) (length pre) s h e = (h, e)
  ∧ (parse_lines (pre ++ m :: tail)).2 = (parse_lines pre).2.
Proof.
  intros Hm Ht.
  assert (Hlen : length pre < length (pre ++ m :: tail)).
  { rewrite length_app. simpl. lia. }
  assert (Hi : (pre ++ m :: tail) !!! length pre = m).
  { by rewrite lookup_total_app_r, Nat.sub_diag by lia. }
  assert (Hd : drop (S (length pre)) (pre ++ m :: tail) = tail).
  { rewrite drop_app_ge by lia. by replace (S (length pre) - length pre) with 1 by lia. }
  assert (Hstep : parse_loop (pre ++ m :: tail) (length pre) s h e
                  = parse_loop (pre ++ m :: tail) (S (length pre)) true h e).
  { destruct (scan_url (pre ++ m :: tail) (S (length pre))) as [u j] eqn:E.
    apply (parse_loop_dangling _ _ _ _ _ u j); [done | by rewrite Hi | done |].
    rewrite scan_url_drop, Hd in E. inversion E as [[Hu Hj]].
    by rewrite scan_url_all_skipped. }
  split_and!; [done | |].
  - rewrite Hstep, parse_loop_drop, Hd. by apply parse_skipped_seen.
  - unfold parse_lines. apply parse_app_skipped.
    constructor; [by apply is_extinf_skipped | done].
Qed.

(** C8: the empty file gives no header line and no entry; a file
    without a line whose trimmed form starts with "#EXTINF" gives its
    lines, in order and as they are, as header lines, and no entry, its
    last line ending with "\n" or not. *)
Theorem parse_m3u_without_extinf (path : text) (w : World) (ls : list text)
    (l : text) :
  Forall clean_line ls →
  Forall (λ x, is_extinf x = false) ls →
  clean_line l →
  is_extinf l = false →
  (files w !! path = Some [] → parse_m3u path w = (Return ([], []), w))
  ∧ (files w !! path = Some (join_lines [LF] ls) →
     parse_m3u path w = (Return (ls, []), w))
  ∧ (l ≠ [] →
     files w !! path = Some (join_lines [LF] ls ++ l) →
     parse_m3u path w = (Return (ls ++ [l], []), w)).
Proof.
  intros Hls Hx Hl Hxl.
  assert (E : ∀ content hs,
             files w !! path = Some content →
             read_lines content = hs →
             Forall (λ x, is_extinf x = false) hs →
             parse_m3u path w = (Return (hs, []), w)).
  { intros content hs Hc Hr Hhs. rewrite (parse_m3u_run _ _ content) by done.
    unfold parse_text. rewrite Hr. rewrite <- (app_nil_r hs) at 1.
    rewrite parse_header_lines by done. by rewrite parse_nil. }
  split_and!.
  - intros Hc. by apply (E [] []).
  - intros Hc. apply (E _ _ Hc); [by apply read_lines_join | done].
  - intros Hne Hc. apply (E _ _ Hc); [by apply read_lines_join_last|].
    apply Forall_app. split; [done | by repeat constructor].
Qed.

(** ** The driver: properties *)

Lemma first_line_app l rest : LF ∉ l → first_line (l ++ LF :: rest) = l.
Proof.
  induction l as [|c l IH]; [done|].
  intros [Hc Hl]%not_elem_of_cons. simpl.
  destruct (N.eqb_spec c LF); [congruence|]. by rewrite IH.
Qed.

Lemma first_line_join l ls : LF ∉ l → first_line (join_lines [LF] (l :: ls)) = l.
Proof.
  intros Hl. change (join_lines [LF] (l :: ls)) with ((l ++ [LF]) ++ join_lines [LF] ls).
  rewrite <- app_assoc. by apply first_line_app.
Qed.

Lemma ensure_marker_first hs : ∃ t, ensure_marker hs = first_header hs :: t.
Proof.
  unfold ensure_marker, first_header. destruct hs as [|h t].
  - by exists [].
  - change ((h :: t) !!! 0) with h. cbn [truthy negb orb].
    destruct (startswith EXTM3U (strip h)); cbn [negb app]; eauto.
Qed.

Lemma EXTM3U_no_LF : LF ∉ EXTM3U.
Proof. apply (bool_decide_eq_false_1 (LF ∈ EXTM3U)). by vm_compute. Qed.

Lemma first_header_marker hs : startswith EXTM3U (strip (first_header hs)) = true.
Proof.
  unfold first_header. destruct hs as [|h t]; [by vm_compute|].
  destruct (startswith EXTM3U (strip h)) eqn:E; [done | by vm_compute].
Qed.

(** C1, as the code has it: in the file [clean_m3u] writes, the first
    line is the first header line of the input as it is when its trimmed
    form starts with "#EXTM3U", and the line "#EXTM3U" otherwise (no
    header line, or a first header line without the marker); in both
    cases the trimmed first line starts with "#EXTM3U". *)
Theorem clean_m3u_first_line (input_path output_path : text)
    (max_channels : option Z) (w : World) (content : text) :
  files w !! input_path = Some content →
  (clean_m3u input_path output_path max_channels w).1 = Return () →
  ∃ written,
    files (clean_m3u input_path output_path max_channels w).2 !! output_path
    = Some written
    ∧ first_line written = first_header (parse_text content).1
    ∧ startswith EXTM3U (strip (first_line written)) = true.
Proof.
  intros Hc Hr.
  destruct (clean_m3u_run input_path output_path max_channels w content Hc)
    as (evs & m & _ & _ & _ & _ & Hout).
  rewrite Hr in Hout. destruct Hout as (kept & wevs & _ & _ & Hf & _).
  eexists. rewrite Hf. split; [apply lookup_insert_eq|].
  destruct (ensure_marker_first (parse_text content).1) as [t Ht].
  unfold playlist_text. rewrite Ht. cbn [app].
  assert (Hlf : LF ∉ first_header (parse_text content).1).
  { destruct (parse_text_invariant content) as [Hh _].
    unfold first_header. destruct (parse_text content).1 as [|h0 t0];
      [apply EXTM3U_no_LF|].
    destruct (startswith EXTM3U (strip h0)); [|apply EXTM3U_no_LF].
    inversion Hh as [|? ? [_ [_ ?]]]; by subst. }
  rewrite first_line_join by done. split; [done | apply first_header_marker].
Qed.

(** C3: the entries [clean_m3u] writes are a subsequence, in the
    original order, of the entries parsed from the input, so at most as
    many, whatever the probes answer, and each is written as its two
    lines, unchanged, after the header lines. *)
Theorem clean_m3u_survivors_subsequence (input_path output_path : text)
    (max_channels : option Z) (w : World) :
  (clean_m3u input_path output_path max_channels w).1 = Return () →
  ∃ content kept,
    files w !! input_path = Some content
    ∧ kept `sublist_of` (parse_text content).2
    ∧ length kept ≤ length (parse_text content).2
    ∧ files (clean_m3u input_path output_path max_channels w).2 !! output_path
      = Some (playlist_text (ensure_marker (parse_text content).1) kept).
Proof.
  intros Hr. destruct (files w !! input_path) as [content|] eqn:Hc.
  2:{ by rewrite clean_m3u_no_input in Hr. }
  destruct (clean_m3u_run input_path output_path max_channels w content Hc)
    as (evs & m & _ & _ & _ & _ & Hout).
  rewrite Hr in Hout. destruct Hout as (kept & wevs & Hsub & _ & Hf & _).
  assert (Hsub' : kept `sublist_of` (parse_text content).2).
  { etrans; [done | apply sublist_take]. }
  exists content, kept. split_and!; [done | done | by apply sublist_length |].
  rewrite Hf. apply lookup_insert_eq.
Qed.

Lemma ensure_marker_has_marker hs :
  ensure_marker hs = if has_marker hs then hs else EXTM3U :: hs.
Proof.
  destruct hs as [|h t]; [done|].
  unfold ensure_marker, has_marker. change ((h :: t) !!! 0) with h.
  cbn [truthy negb orb]. by destruct (startswith EXTM3U (strip h)).
Qed.

(** C4: with [max_channels = k], the URLs handed to [test_url] are those
    of the first [n] entries for some [n] of at most [k], and the entries
    written are among the first [k]; with [k = 0] nothing is handed to
    [test_url], and the file a run that ends normally has written holds
    the header lines of the input, each followed by "\n", after the line
    "#EXTM3U" when the header does not start with the marker, and nothing
    else. *)
Theorem clean_m3u_max_channels (input_path output_path : text) (k : Z)
    (w : World) (content : text) :
  files w !! input_path = Some content →
  let hs := (parse_text content).1 in
  let es := (parse_text content).2 in
  let out := clean_m3u input_path output_path (Some k) w in
  (∃ n, n ≤ Z.to_nat k
        ∧ probes (trace out.2) = probes (trace w) ++ (snd <$> take n es))
  ∧ (out.1 = Return () →
     ∃ kept, kept `sublist_of` take (Z.to_nat k) es
             ∧ files out.2 !! output_path
               = Some (playlist_text (ensure_marker hs) kept))
  ∧ (k = 0%Z →
     probes (trace out.2) = probes (trace w)
     ∧ (out.1 = Return () →
        files out.2 !! output_path
        = Some (join_lines [LF] (if has_marker hs then hs else EXTM3U :: hs)))).
Proof.
  intros Hc hs es out.
  destruct (clean_m3u_run input_path output_path (Some k) w content Hc)
    as (evs & m & _ & Hp & Hm & Hl & Hout).
  fold es hs out in Hp, Hm, Hout.
  assert (Hmk : m ≤ Z.to_nat k) by (destruct Hl; lia).
  assert (Hprobes : probes (trace out.2) = probes (trace w) ++ (snd <$> take m es)).
  { destruct out.1 as [[]|e].
    - destruct Hout as (kept & wevs & _ & Hv & _ & Ht).
      rewrite Ht, !probes_app, Hp.
      change (probes (OpenWrite output_path :: wevs)) with (probes wevs).
      rewrite (probes_no_validation wevs) by done. by rewrite app_nil_r.
    - destruct Hout as [_ [_ Ht]]. by rewrite Ht, probes_app, Hp. }
  assert (Hwritten : out.1 = Return () →
     ∃ kept, kept `sublist_of` take m es
             ∧ files out.2 !! output_path
               = Some (playlist_text (ensure_marker hs) kept)).
  { intros Hr. rewrite Hr in Hout.
    destruct Hout as (kept & wevs & Hsub & _ & Hf & _).
    exists kept. split; [done|]. rewrite Hf. apply lookup_insert_eq. }
  split_and!.
  - by exists m.
  - intros Hr. destruct (Hwritten Hr) as (kept & Hsub & Hf).
    exists kept. split; [|done]. etrans; [done|].
    replace (take m es) with (take m (take (Z.to_nat k) es))
      by (rewrite take_take; f_equal; lia).
    apply sublist_take.
  - intros ->. assert (m = 0) as -> by lia.
    split; [by rewrite Hprobes, app_nil_r|].
    intros Hr. destruct (Hwritten Hr) as (kept & Hsub & Hf).
    apply sublist_nil_r in Hsub. subst kept.
    rewrite Hf. unfold playlist_text. cbn [entry_lines fmap list_fmap concat].
    by rewrite app_nil_r, ensure_marker_has_marker.
Qed.

(** C2, at an input where the code fails: for a URL without a scheme the
    constructor of the request raises [ValueError] before the [try], and
    the exception leaves [test_url]: no boolean is returned. *)
Theorem test_url_raises_without_scheme (timeout : Q) (w : World) :
  (test_url (lit "example.com/stream") timeout w).1 = Raise ValueError.
Proof. by apply test_url_Request_raises. Qed.

(** C10, as the code has it: a file whose lines end in "\r\n" is read as
    the lines themselves, both characters of each line ending removed;
    no header line, metadata line or URL line that is stored holds a
    carriage return; the URLs handed to [test_url] are stored URL lines
    as they are, and the entries written are stored entries. *)
Theorem parse_m3u_crlf_lines (ls : list text) (input_path output_path : text)
    (max_channels : option Z) (w : World) :
  Forall clean_line ls →
  files w !! input_path = Some (join_lines [CR; LF] ls) →
  let out := clean_m3u input_path output_path max_channels w in
  parse_m3u input_path w = (Return (parse_lines ls), w)
  ∧ Forall (λ l, CR ∉ l) (parse_lines ls).1
  ∧ Forall (λ en : entry, (CR ∉ en.1) ∧ (CR ∉ en.2)) (parse_lines ls).2
  ∧ (∃ n, probes (trace out.2)
          = probes (trace w) ++ (snd <$> take n (parse_lines ls).2))
  ∧ (out.1 = Return () →
     ∃ kept, kept `sublist_of` (parse_lines ls).2
             ∧ files out.2 !! output_path
               = Some (playlist_text (ensure_marker (parse_lines ls).1) kept)).
Proof.
  intros Hls Hc out.
  assert (Hp : parse_text (join_lines [CR; LF] ls) = parse_lines ls).
  { unfold parse_text. by rewrite read_lines_join_crlf. }
  destruct (parse_text_invariant (join_lines [CR; LF] ls)) as [Hh He].
  destruct (clean_m3u_run input_path output_path max_channels w _ Hc)
    as (evs & m & _ & Hpr & _ & _ & Hout).
  fold out in Hout. rewrite Hp in Hh, He, Hpr, Hout.
  split_and!.
  - by rewrite (parse_m3u_run _ _ _ Hc), Hp.
  - eapply Forall_impl; [done | by intros ? (_ & ? & _)].
  - eapply Forall_impl; [done | by intros ? (_ & [? _] & [? _])].
  - exists m. destruct out.1 as [[]|e].
    + destruct Hout as (kept & wevs & _ & Hv & _ & Ht).
      rewrite Ht, !probes_app, Hpr.
      change (probes (OpenWrite output_path :: wevs)) with (probes wevs).
      rewrite (probes_no_validation wevs) by done. by rewrite app_nil_r.
    + destruct Hout as [_ [_ Ht]]. by rewrite Ht, probes_app, Hpr.
  - intros Hr. rewrite Hr in Hout.
    destruct Hout as (kept & wevs & Hsub & _ & Hf & _).
    exists kept. split; [etrans; [done | apply sublist_take]|].
    rewrite Hf. apply lookup_insert_eq.
Qed.

End Runs.

(** ** Facts about runs with failing operations *)

Section FailingRuns.

Context `{P : Platform}.

Lemma fbind_run {A B} (m : F A) (k : A → F B) sch w :
  (m ≫= k) sch w = match m sch w with
                   | (Return a, w', sch') => k a sch' w'
                   | (Raise e, w', sch') => (Raise e, w', sch')
                   end.
Proof. reflexivity. Qed.

Lemma fbind_assoc {A B C} (m : F A) (k : A → F B) (k' : B → F C) sch w :
  ((m ≫= k) ≫= k') sch w = (m ≫= (λ a, k a ≫= k')) sch w.
Proof. rewrite !fbind_run. by destruct (m sch w) as [[[a|e] w1] sch1]. Qed.

(** An operation fails as scheduled, in the world as it is, or goes
    through. *)
Lemma op_cases {A} (m : M A) sch w :
  (∃ e sch', sch = Some e :: sch' ∧ op m sch w = (Raise e, w, sch'))
  ∨ (∃ sch', op m sch w = (m w, sch')).
Proof. destruct sch as [|[e|] sch']; simpl; eauto. Qed.

Lemma op_faultless {A} (m : M A) sch w :
  faultless sch → (op m sch w).1 = m w ∧ faultless (op m sch w).2.
Proof.
  intros Hs. destruct sch as [|[e|] sch']; [done | |].
  - by inversion Hs.
  - inversion Hs; by subst.
Qed.

(** *** With nothing scheduled *)

Lemma agrees_ret {A} (a : A) : agrees (fret a) (ret a).
Proof. done. Qed.

Lemma agrees_bind {A B} (mf : F A) (m : M A) (kf : A → F B) (k : A → M B) :
  agrees mf m → (∀ a, agrees (kf a) (k a)) → agrees (mf ≫= kf) (m ≫= k).
Proof.
  intros Hm Hk w. rewrite fbind_run, bind_run, (Hm w).
  destruct (m w) as [[a|e] w1]; [apply Hk | done].
Qed.

Lemma agrees_op {A} (m : M A) : agrees (op m) m.
Proof. done. Qed.

Lemma agrees_plain {A} (m : M A) : agrees (plain m) m.
Proof. done. Qed.

Lemma agrees_for_each {A} (xs : list A) (bf : A → F ()) (b : A → M ()) :
  (∀ x, agrees (bf x) (b x)) → agrees (for_each_F xs bf) (for_each xs b).
Proof.
  intros Hb. induction xs as [|x xs IH]; [done|].
  cbn [for_each_F for_each]. apply agrees_bind; [apply Hb | done].
Qed.

Lemma clean_loop_F_agrees n max_channels rest : ∀ idx acc,
  agrees (clean_loop_F n max_channels idx rest acc)
    (clean_loop n max_channels idx rest acc).
Proof.
  induction rest as [|[extinf url] rest IH]; intros idx acc; [done|].
  cbn [clean_loop_F clean_loop]. destruct (over_limit max_channels idx); [done|].
  apply agrees_bind; [apply agrees_op|]. intros _.
  apply agrees_bind; [apply agrees_plain|]. intros ok.
  apply agrees_bind.
  { destruct ok; (apply agrees_bind; [apply agrees_op | intros _; apply agrees_ret]). }
  intros acc'. apply agrees_bind; [apply agrees_plain | intros _; apply IH].
Qed.

(** With nothing scheduled the program is the one defined first. *)
Lemma clean_m3u_F_agrees input_path output_path max_channels :
  agrees (clean_m3u_F input_path output_path max_channels)
    (clean_m3u input_path output_path max_channels).
Proof.
  unfold clean_m3u_F, clean_m3u.
  apply agrees_bind.
  { apply agrees_bind; [apply agrees_op | intros ?; apply agrees_ret]. }
  intros [hs es].
  apply agrees_bind; [apply agrees_op|]. intros _.
  apply agrees_bind; [apply clean_loop_F_agrees|]. intros kept.
  apply agrees_bind; [apply agrees_op|]. intros _. cbn zeta.
  apply agrees_bind; [|intros _; apply agrees_op].
  unfold write_playlist_F, write_playlist.
  apply agrees_bind; [apply agrees_op|]. intros _.
  apply agrees_bind.
  - apply agrees_for_each. intros line. apply agrees_op.
  - intros _. apply agrees_for_each. intros [extinf url].
    apply agrees_bind; [apply agrees_op | intros _; apply agrees_op].
Qed.

Lemma main_F_agrees args : agrees (main_F args) (main args).
Proof.
  intros w. unfold main_F, main. rewrite fbind_run. cbn [op ret].
  unfold ftry_except, try_except. rewrite clean_m3u_F_agrees.
  destruct (clean_m3u (input args) (output args) (max_channels args) w)
    as [[[]|e] w1]; [done|].
  by destruct (is_KeyboardInterrupt e).
Qed.

(** *** The validation *)

Lemma quiet_ret {A} (a : A) : quiet (fret a).
Proof. intros sch w. exists []. split; [apply steps_refl | constructor]. Qed.

Lemma quiet_bind {A B} (m : F A) (k : A → F B) :
  quiet m → (∀ a, quiet (k a)) → quiet (m ≫= k).
Proof.
  intros Hm Hk sch w. rewrite fbind_run. destruct (Hm sch w) as (evs1 & S1 & H1).
  destruct (m sch w) as [[[a|e] w1] sch1]; cbn [fst snd] in *.
  - destruct (Hk a sch1 w1) as (evs2 & S2 & H2).
    exists (evs1 ++ evs2). split; [by eapply steps_trans | by apply Forall_app].
  - by exists evs1.
Qed.

Lemma quiet_op {A} (m : M A) :
  (∀ w, ∃ evs, steps w (m w).2 evs ∧ Forall (λ ev, is_write ev = false) evs) →
  quiet (op m).
Proof.
  intros Hm sch w. destruct (op_cases m sch w) as [(e & sch' & -> & E)|[sch' E]];
    rewrite E; cbn [fst snd].
  - exists []. split; [apply steps_refl | constructor].
  - apply Hm.
Qed.

Lemma quiet_plain {A} (m : M A) :
  (∀ w, ∃ evs, steps w (m w).2 evs ∧ Forall (λ ev, is_write ev = false) evs) →
  quiet (plain m).
Proof. intros Hm sch w. apply Hm. Qed.

Lemma quiet_print s : quiet (op (print s)).
Proof.
  apply quiet_op. intros w. exists [Print s]. split; [done | by repeat constructor].
Qed.

Lemma quiet_read path : quiet (op (read_text path)).
Proof.
  apply quiet_op. intros w. exists []. split; [|constructor].
  unfold read_text. destruct (files w !! path); apply steps_refl.
Qed.

Lemma quiet_test_url url timeout : quiet (plain (test_url url timeout)).
Proof.
  apply quiet_plain. intros w. exists [Probe url].
  split; [apply test_url_steps | by repeat constructor].
Qed.

Lemma quiet_sleep d : quiet (plain (time_sleep d)).
Proof.
  apply quiet_plain. intros w. exists [Sleep d].
  split; [apply time_sleep_steps | by repeat constructor].
Qed.

Lemma quiet_parse_m3u_F path : quiet (parse_m3u_F path).
Proof. apply quiet_bind; [apply quiet_read | intros ?; apply quiet_ret]. Qed.

Lemma quiet_clean_loop_F n max_channels rest : ∀ idx acc,
  quiet (clean_loop_F n max_channels idx rest acc).
Proof.
  induction rest as [|[extinf url] rest IH]; intros idx acc; [apply quiet_ret|].
  cbn [clean_loop_F]. destruct (over_limit max_channels idx); [apply quiet_ret|].
  apply quiet_bind; [apply quiet_print|]. intros _.
  apply quiet_bind; [apply quiet_test_url|]. intros ok.
  apply quiet_bind.
  { destruct ok; (apply quiet_bind; [apply quiet_print | intros _; apply quiet_ret]). }
  intros acc'. apply quiet_bind; [apply quiet_sleep | intros _; apply IH].
Qed.

(** *** The writing *)

Lemma only_at_refl path w : only_at path w w.
Proof. done. Qed.

Lemma only_at_trans path w1 w2 w3 :
  only_at path w1 w2 → only_at path w2 w3 → only_at path w1 w3.
Proof. intros H1 H2 p Hp. by rewrite H2, H1. Qed.

Lemma writing_ret {A} path (a : A) : writing path (fret a).
Proof.
  intros sch w. exists []. cbn [fret fst snd]. by rewrite app_nil_r.
Qed.

Lemma writing_bind {A B} path (m : F A) (k : A → F B) :
  writing path m → (∀ a, writing path (k a)) → writing path (m ≫= k).
Proof.
  intros Hm Hk sch w. rewrite fbind_run.
  destruct (Hm sch w) as (wevs1 & T1 & H1 & O1).
  destruct (m sch w) as [[[a|e] w1] sch1]; cbn [fst snd] in *.
  - destruct (Hk a sch1 w1) as (wevs2 & T2 & H2 & O2).
    exists (wevs1 ++ wevs2). split_and!.
    + by rewrite T2, T1, app_assoc.
    + by apply Forall_app.
    + by eapply only_at_trans.
  - by exists wevs1.
Qed.

Lemma writing_op {A} path (m : M A) :
  (∀ w, ∃ wevs, trace (m w).2 = trace w ++ wevs
                ∧ Forall (λ ev, is_validation ev = false) wevs
                ∧ only_at path w (m w).2) →
  writing path (op m).
Proof.
  intros Hm sch w. destruct (op_cases m sch w) as [(e & sch' & -> & E)|[sch' E]];
    rewrite E; cbn [fst snd].
  - exists []. by rewrite app_nil_r.
  - apply Hm.
Qed.

Lemma writing_write path s : writing path (op (write path s)).
Proof.
  apply writing_op. intros w. exists [Write path s]. split_and!.
  - done.
  - by repeat constructor.
  - intros p Hp. cbn [write snd files]. by rewrite lookup_insert_ne.
Qed.

Lemma writing_print path s : writing path (op (print s)).
Proof.
  apply writing_op. intros w. exists [Print s].
  split_and!; [done | by repeat constructor | done].
Qed.

Lemma writing_for_each {A} path (xs : list A) (body : A → F ()) :
  (∀ x, writing path (body x)) → writing path (for_each_F xs body).
Proof.
  intros Hb. induction xs as [|x xs IH]; [apply writing_ret|].
  cbn [for_each_F]. apply writing_bind; [apply Hb | done].
Qed.

(** *** First the validation, then the writing *)

Lemma validates_then_writes_ext {A} path (m m' : F A) :
  (∀ sch w, m sch w = m' sch w) →
  validates_then_writes path m → validates_then_writes path m'.
Proof. intros E Hm sch w. rewrite <- E. apply Hm. Qed.

Lemma quiet_then {A B} path (m : F A) (k : A → F B) :
  quiet m → (∀ a, validates_then_writes path (k a)) →
  validates_then_writes path (m ≫= k).
Proof.
  intros Hm Hk sch w. rewrite fbind_run. destruct (Hm sch w) as (evs1 & [F1 T1] & H1).
  destruct (m sch w) as [[[a|e] w1] sch1]; cbn [fst snd] in *.
  - destruct (Hk a sch1 w1) as (evs2 & wevs & T2 & H2 & Hv & O2 & Hf).
    exists (evs1 ++ evs2), wevs. split_and!.
    + by rewrite T2, T1, <- !app_assoc.
    + by apply Forall_app.
    + done.
    + intros p Hp. by rewrite (O2 p Hp), F1.
    + intros Hw. by rewrite Hf, F1.
  - exists evs1, []. rewrite app_nil_r.
    split_and!; [done | done | constructor | by intros p _; rewrite F1 | done].
Qed.

(** The output file is opened, or the opening fails and nothing has
    happened; once it is open nothing is validated. *)
Lemma opened_then {B} path (k : F B) :
  writing path k →
  validates_then_writes path (op (open_write path) ≫= (λ _, k)).
Proof.
  intros Hk sch w. rewrite fbind_run.
  assert (Hopen : ∀ sch',
    let w1 := Build_World (<[path := []]> (files w)) (trace w ++ [OpenWrite path])
                (env w) in
    ∃ evs wevs,
      trace (k sch' w1).1.2 = trace w ++ evs ++ wevs
      ∧ Forall (λ ev, is_write ev = false) evs
      ∧ Forall (λ ev, is_validation ev = false) wevs
      ∧ only_at path w (k sch' w1).1.2
      ∧ (Forall (λ ev, is_write ev = false) wevs → files (k sch' w1).1.2 = files w)).
  { intros sch' w1. destruct (Hk sch' w1) as (wevs & T & Hv & O).
    exists [], (OpenWrite path :: wevs). split_and!.
    - rewrite T. cbn [trace w1 app]. by rewrite <- app_assoc.
    - constructor.
    - by constructor.
    - intros p Hp. rewrite (O p Hp). cbn [files w1]. by rewrite lookup_insert_ne.
    - intros Hw. by inversion Hw. }
  destruct sch as [|[e|] sch']; cbn [op open_write].
  - apply Hopen.
  - exists [], []. cbn [fst snd]. rewrite !app_nil_r.
    split_and!; [done | constructor | constructor | done | done].
  - apply Hopen.
Qed.

Lemma opened_then_more {B C} path (k : F B) (k' : B → F C) :
  writing path k → (∀ b, writing path (k' b)) →
  validates_then_writes path ((op (open_write path) ≫= (λ _, k)) ≫= k').
Proof.
  intros Hk Hk'.
  apply (validates_then_writes_ext path (op (open_write path) ≫= (λ _, k ≫= k'))).
  - intros sch w. symmetry. apply fbind_assoc.
  - by apply opened_then, writing_bind.
Qed.

(** The end of [clean_m3u], from the [with] block on. *)
Lemma output_validates_then_writes path hs es s :
  validates_then_writes path (write_playlist_F path hs es ≫= (λ _, op (print s))).
Proof.
  unfold write_playlist_F.
  apply opened_then_more; [|intros _; apply writing_print].
  apply writing_bind.
  - apply writing_for_each. intros line. apply writing_write.
  - intros _. apply writing_for_each. intros [extinf url].
    apply writing_bind; [apply writing_write | intros _; apply writing_write].
Qed.

(** Whatever fails: [clean_m3u] opens the output file only after the
    last probe and the last pause, changes no file before, and no other
    file ever. *)
Lemma clean_m3u_F_run input_path output_path max_channels :
  validates_then_writes output_path (clean_m3u_F input_path output_path max_channels).
Proof.
  unfold clean_m3u_F.
  apply quiet_then; [apply quiet_parse_m3u_F|]. intros [hs es].
  apply quiet_then; [apply quiet_print|]. intros _.
  apply quiet_then; [apply quiet_clean_loop_F|]. intros kept.
  apply quiet_then; [apply quiet_print|]. intros _. cbn zeta.
  apply output_validates_then_writes.
Qed.

(** C9, as the code has it: whatever fails, [clean_m3u] opens the output
    file only after the last probe and the last pause, and no file has
    changed before; when a user interrupt ends [clean_m3u] and nothing
    else goes wrong, [main] prints one line and exits with status 1; if
    the interrupt came before the output file was opened, no file has
    changed. *)
Theorem main_interrupt_before_output (args : Args) (sch : schedule) (w : World) :
  let run := clean_m3u_F (input args) (output args) (max_channels args) sch w in
  let out := main_F args (None :: sch) w in
  (∃ evs wevs,
     trace run.1.2 = trace w ++ evs ++ wevs
     ∧ Forall (λ ev, is_write ev = false) evs
     ∧ Forall (λ ev, is_validation ev = false) wevs
     ∧ (Forall (λ ev, is_write ev = false) wevs → files run.1.2 = files w))
  ∧ (run.1.1 = Raise KeyboardInterrupt →
     faultless run.2 →
     out.1.1 = Raise (SystemExit 1)
     ∧ exit_status out.1.1 = 1%Z
     ∧ trace out.1.2 = trace run.1.2 ++ [Print ([LF] ++ lit "Interrupted by user.")]
     ∧ files out.1.2 = files run.1.2
     ∧ (∀ evs, trace run.1.2 = trace w ++ evs →
               Forall (λ ev, is_write ev = false) evs →
               files out.1.2 = files w)).
Proof.
  intros run out.
  destruct (clean_m3u_F_run (input args) (output args) (max_channels args) sch w)
    as (evs & wevs & T & Hw & Hv & _ & Hf).
  fold run in T, Hf. split; [by exists evs, wevs|].
  intros Hr Hs.
  assert (E : out = (Raise (SystemExit 1),
                     Build_World (files run.1.2)
                       (trace run.1.2 ++ [Print ([LF] ++ lit "Interrupted by user.")])
                       (env run.1.2),
                     (op (print ([LF] ++ lit "Interrupted by user.")) run.2 run.1.2).2)).
  { subst out. unfold main_F. rewrite fbind_run. cbn [op ret]. unfold ftry_except.
    fold run. destruct run as [[r w1] sch1]. cbn [fst snd] in *. subst r.
    cbn [is_KeyboardInterrupt]. rewrite fbind_run.
    destruct (op_faultless (print ([LF] ++ lit "Interrupted by user.")) sch1 w1 Hs)
      as [E1 _].
    destruct (op (print ([LF] ++ lit "Interrupted by user.")) sch1 w1) as [[r w2] sch2].
    cbn [fst snd] in *. by inversion E1; subst. }
  rewrite E. cbn [fst snd files trace]. split_and!; [done | done | done | done |].
  intros evs' T' Hw'. apply Hf. rewrite T in T'. apply app_inv_head in T'.
  subst evs'. by apply Forall_app in Hw' as [_ ?].
Qed.

(** X8: whatever fails, [clean_m3u] changes no file but the one at the
    output path, and as long as it has not opened that file it has
    changed no file at all. *)
Theorem clean_m3u_touches_only_output (input_path output_path : text)
    (max_channels : option Z) (sch : schedule) (w : World) (path : text) :
  path ≠ output_path →
  let run := clean_m3u_F input_path output_path max_channels sch w in
  files run.1.2 !! path = files w !! path
  ∧ (∀ evs, trace run.1.2 = trace w ++ evs →
            Forall (λ ev, is_write ev = false) evs →
            files run.1.2 = files w).
Proof.
  intros Hne run.
  destruct (clean_m3u_F_run input_path output_path max_channels sch w)
    as (evs & wevs & T & Hw & Hv & O & Hf).
  fold run in T, O, Hf. split; [by apply O|].
  intros evs' T' Hw'. apply Hf. rewrite T in T'. apply app_inv_head in T'.
  subst evs'. by apply Forall_app in Hw' as [_ ?].
Qed.

End FailingRuns.

(** ** Runs on the platform *)

(** The scenario of the two channels: the one that answers is kept. *)
Example clean_m3u_scenario :
  let out := @clean_m3u demo_platform demo_in demo_out None
               (demo_world demo_playlist None) in
  out.1 = Return ()
  ∧ files out.2 !! demo_out = Some (lit "#EXTM3U
#EXTINF:-1,Channel A
http://good.example/stream
")
  ∧ probes (trace out.2)
    = [lit "http://good.example/stream"; lit "http://bad.example/stream"].
Proof. vm_compute. by split_and!. Qed.

(** A link without a scheme ends the whole run with [ValueError]: [main]
    does not catch it, and no file is written. *)
Example main_crashes_without_scheme :
  let out := @main demo_platform demo_args (demo_world local_playlist None) in
  out.1 = Raise ValueError
  ∧ exit_status out.1 = 1%Z
  ∧ files out.2 !! demo_out = None.
Proof. vm_compute. by split_and!. Qed.

(** With [max_channels = 0] the playlist without header is cleaned to
    the marker line alone, and nothing is probed. *)
Example clean_m3u_no_channel :
  let out := @clean_m3u demo_platform demo_in demo_out (Some 0%Z)
               (demo_world bare_playlist None) in
  out.1 = Return ()
  ∧ files out.2 !! demo_out = Some (lit "#EXTM3U
")
  ∧ probes (trace out.2) = [].
Proof. vm_compute. by split_and!. Qed.

(** C1 fails as stated: the first line written keeps what the first
    header line of the input has around the marker. *)
Lemma clean_m3u_first_line_counterexample :
  let out1 := @clean_m3u demo_platform demo_in demo_out None
                (demo_world attr_playlist None) in
  let out2 := @clean_m3u demo_platform demo_in demo_out None
                (demo_world padded_playlist None) in
  (out1.1 = Return ()
   ∧ first_line <$> files out1.2 !! demo_out
     = Some (lit "#EXTM3U url-tvg=http://epg.example/guide.xml")
   ∧ first_line <$> files out1.2 !! demo_out ≠ Some EXTM3U)
  ∧ (out2.1 = Return ()
     ∧ first_line <$> files out2.2 !! demo_out = Some (lit "  #EXTM3U")
     ∧ first_line <$> files out2.2 !! demo_out ≠ Some EXTM3U).
Proof. vm_compute. by split_and!. Qed.

(** C10 fails as stated: no line stored from a file with "\r\n" line
    endings ends in a carriage return, and the URL handed to [test_url]
    has none. *)
Lemma parse_m3u_crlf_counterexample :
  let out := @clean_m3u demo_platform demo_in demo_out None
               (demo_world crlf_playlist None) in
  parse_text crlf_playlist
  = ([lit "#EXTM3U"], [(lit "#EXTINF:-1,Channel A", lit "http://good.example/stream")])
  ∧ Forall (λ l, last l ≠ Some CR)
      ((parse_text crlf_playlist).1 ++ entry_lines (parse_text crlf_playlist).2)
  ∧ probes (trace out.2) = [lit "http://good.example/stream"]
  ∧ files out.2 !! demo_out = Some (lit "#EXTM3U
#EXTINF:-1,Channel A
http://good.example/stream
").
Proof. vm_compute. split_and!; [done | by repeat constructor | done | done]. Qed.

(** C9 fails as stated: an interrupt while [main] parses its arguments
    is before the [try]; nobody catches it and no message is printed. *)
Lemma main_interrupt_counterexample :
  let out := @main_F demo_platform demo_args (interrupt_at 0)
               (demo_world demo_playlist None) in
  out.1.1 = Raise KeyboardInterrupt
  ∧ out.1.1 ≠ Raise (SystemExit 1)
  ∧ trace out.1.2 = []
  ∧ files out.1.2 !! demo_out = None.
Proof. vm_compute. by split_and!. Qed.

(** A run on an empty playlist, interrupted while the input is read: the
    message, status 1, and no output file. *)
Example main_F_interrupt_while_reading :
  let out := @main_F demo_platform demo_args (interrupt_at 1) (demo_world [] None) in
  out.1.1 = Raise (SystemExit 1)
  ∧ trace out.1.2 = [Print ([LF] ++ lit "Interrupted by user.")]
  ∧ files out.1.2 !! demo_out = None.
Proof. vm_compute. by split_and!. Qed.

(** An interrupt after the output file is opened: the message and
    status 1 again, and the file is left with what was written until
    then. *)
Example main_F_interrupt_while_writing :
  let out := @main_F demo_platform demo_args (interrupt_at 10)
               (demo_world demo_playlist None) in
  out.1.1 = Raise (SystemExit 1)
  ∧ last (trace out.1.2) = Some (Print ([LF] ++ lit "Interrupted by user."))
  ∧ files out.1.2 !! demo_out = Some (lit "#EXTM3U
").
Proof. vm_compute. by split_and!. Qed.

(** ** The theorems at work *)

(** The first line written for the playlist whose marker line carries
    attributes. *)
Lemma clean_m3u_first_line_witness :
  files (demo_world attr_playlist None) !! demo_in = Some attr_playlist
  ∧ (@clean_m3u demo_platform demo_in demo_out None (demo_world attr_playlist None)).1
    = Return ()
  ∧ ∃ written,
      files (@clean_m3u demo_platform demo_in demo_out None
               (demo_world attr_playlist None)).2 !! demo_out = Some written
      ∧ first_line written = first_header (parse_text attr_playlist).1
      ∧ startswith EXTM3U (strip (first_line written)) = true.
Proof.
  assert (H1 : files (demo_world attr_playlist None) !! demo_in = Some attr_playlist)
    by (vm_compute; reflexivity).
  assert (H2 : (@clean_m3u demo_platform demo_in demo_out None
                  (demo_world attr_playlist None)).1 = Return ())
    by (vm_compute; reflexivity).
  exact (conj H1 (conj H2
    (@clean_m3u_first_line demo_platform demo_in demo_out None _ _ H1 H2))).
Defined.

(** The entries written in the scenario of the two channels. *)
Lemma clean_m3u_survivors_subsequence_witness :
  (@clean_m3u demo_platform demo_in demo_out None (demo_world demo_playlist None)).1
  = Return ()
  ∧ ∃ content kept,
      files (demo_world demo_playlist None) !! demo_in = Some content
      ∧ kept `sublist_of` (parse_text content).2
      ∧ length kept ≤ length (parse_text content).2
      ∧ files (@clean_m3u demo_platform demo_in demo_out None
                 (demo_world demo_playlist None)).2 !! demo_out
        = Some (playlist_text (ensure_marker (parse_text content).1) kept).
Proof.
  assert (H1 : (@clean_m3u demo_platform demo_in demo_out None
                  (demo_world demo_playlist None)).1 = Return ())
    by (vm_compute; reflexivity).
  exact (conj H1
    (@clean_m3u_survivors_subsequence demo_platform demo_in demo_out None _ H1)).
Defined.

(** The scenario of the two channels, limited to one channel, and the
    playlist without header, limited to no channel. *)
Lemma clean_m3u_max_channels_witness :
  files (demo_world demo_playlist None) !! demo_in = Some demo_playlist
  ∧ (∃ n, n ≤ 1
          ∧ probes (trace (@clean_m3u demo_platform demo_in demo_out (Some 1%Z)
                             (demo_world demo_playlist None)).2)
            = probes (trace (demo_world demo_playlist None))
              ++ (snd <$> take n (parse_text demo_playlist).2))
  ∧ files (demo_world bare_playlist None) !! demo_in = Some bare_playlist
  ∧ (@clean_m3u demo_platform demo_in demo_out (Some 0%Z)
       (demo_world bare_playlist None)).1 = Return ()
  ∧ probes (trace (@clean_m3u demo_platform demo_in demo_out (Some 0%Z)
                     (demo_world bare_playlist None)).2)
    = probes (trace (demo_world bare_playlist None))
  ∧ files (@clean_m3u demo_platform demo_in demo_out (Some 0%Z)
             (demo_world bare_playlist None)).2 !! demo_out
    = Some (join_lines [LF]
              (if has_marker (parse_text bare_playlist).1
               then (parse_text bare_playlist).1
               else EXTM3U :: (parse_text bare_playlist).1)).
Proof.
  assert (H1 : files (demo_world demo_playlist None) !! demo_in = Some demo_playlist)
    by (vm_compute; reflexivity).
  assert (H2 : files (demo_world bare_playlist None) !! demo_in = Some bare_playlist)
    by (vm_compute; reflexivity).
  assert (H3 : (@clean_m3u demo_platform demo_in demo_out (Some 0%Z)
                  (demo_world bare_playlist None)).1 = Return ())
    by (vm_compute; reflexivity).
  pose proof (proj2 (proj2
    (@clean_m3u_max_channels demo_platform demo_in demo_out 0%Z _ _ H2)) eq_refl) as H.
  exact (conj H1 (conj (proj1
    (@clean_m3u_max_channels demo_platform demo_in demo_out 1%Z _ _ H1))
    (conj H2 (conj H3 (conj (proj1 H) (proj2 H H3)))))).
Defined.

(** An orphan metadata line, a blank line and a comment after one
    entry. *)
Lemma parse_m3u_dangling_extinf_witness :
  is_extinf (lit "#EXTINF:-1,Orphan") = true
  ∧ Forall (λ l, skipped l = true) [[]; lit "# end"]
  ∧ (parse_lines ([lit "#EXTM3U"; lit "#EXTINF:-1,Channel A";
                   lit "http://good.example/stream"]
                  ++ lit "#EXTINF:-1,Orphan" :: [[]; lit "# end"])).2
    = (parse_lines [lit "#EXTM3U"; lit "#EXTINF:-1,Channel A";
                    lit "http://good.example/stream"]).2.
Proof.
  assert (H1 : is_extinf (lit "#EXTINF:-1,Orphan") = true) by (vm_compute; reflexivity).
  assert (H2 : Forall (λ l, skipped l = true) [[]; lit "# end"])
    by (repeat constructor).
  exact (conj H1 (conj H2 (proj2 (proj2
    (@parse_m3u_dangling_extinf
       [lit "#EXTM3U"; lit "#EXTINF:-1,Channel A"; lit "http://good.example/stream"]
       (lit "#EXTINF:-1,Orphan") [[]; lit "# end"] false [] [] H1 H2))))).
Defined.

(** The playlist without any metadata line, whose last line has no line
    ending. *)
Lemma parse_m3u_without_extinf_witness :
  Forall clean_line plain_lines
  ∧ Forall (λ x, is_extinf x = false) plain_lines
  ∧ clean_line plain_last
  ∧ is_extinf plain_last = false
  ∧ plain_last ≠ []
  ∧ files (demo_world plain_playlist None) !! demo_in
    = Some (join_lines [LF] plain_lines ++ plain_last)
  ∧ @parse_m3u demo_platform demo_in (demo_world plain_playlist None)
    = (Return (plain_lines ++ [plain_last], []), demo_world plain_playlist None).
Proof.
  assert (H1 : Forall clean_line plain_lines).
  { apply (bool_decide_eq_true_1 (Forall clean_line plain_lines)).
    vm_compute. reflexivity. }
  assert (H2 : Forall (λ x, is_extinf x = false) plain_lines)
    by (repeat constructor).
  assert (H3 : clean_line plain_last).
  { apply (bool_decide_eq_true_1 (clean_line plain_last)). vm_compute. reflexivity. }
  assert (H4 : is_extinf plain_last = false) by (vm_compute; reflexivity).
  assert (H5 : plain_last ≠ []) by (vm_compute; discriminate).
  assert (H6 : files (demo_world plain_playlist None) !! demo_in
               = Some (join_lines [LF] plain_lines ++ plain_last))
    by (vm_compute; reflexivity).
  exact (conj H1 (conj H2 (conj H3 (conj H4 (conj H5 (conj H6
    (proj2 (proj2
       (@parse_m3u_without_extinf demo_platform demo_in _ plain_lines plain_last
          H1 H2 H3 H4)) H5 H6))))))).
Defined.

(** The user interrupts the line that announces the first probe. *)
Lemma main_interrupt_before_output_witness :
  (@clean_m3u_F demo_platform (input demo_args) (output demo_args)
     (max_channels demo_args) (interrupt_at 2) (demo_world demo_playlist None)).1.1
  = Raise KeyboardInterrupt
  ∧ faultless
      (@clean_m3u_F demo_platform (input demo_args) (output demo_args)
         (max_channels demo_args) (interrupt_at 2) (demo_world demo_playlist None)).2
  ∧ (@main_F demo_platform demo_args (None :: interrupt_at 2)
       (demo_world demo_playlist None)).1.1 = Raise (SystemExit 1)
  ∧ exit_status (@main_F demo_platform demo_args (None :: interrupt_at 2)
                   (demo_world demo_playlist None)).1.1 = 1%Z
  ∧ files (@main_F demo_platform demo_args (None :: interrupt_at 2)
             (demo_world demo_playlist None)).1.2
    = files (demo_world demo_playlist None).
Proof.
  assert (H1 : (@clean_m3u_F demo_platform (input demo_args) (output demo_args)
                  (max_channels demo_args) (interrupt_at 2)
                  (demo_world demo_playlist None)).1.1 = Raise KeyboardInterrupt)
    by (vm_compute; reflexivity).
  assert (H2 : faultless
                 (@clean_m3u_F demo_platform (input demo_args) (output demo_args)
                    (max_channels demo_args) (interrupt_at 2)
                    (demo_world demo_playlist None)).2)
    by (vm_compute; constructor).
  assert (H3 : trace (@clean_m3u_F demo_platform (input demo_args) (output demo_args)
                        (max_channels demo_args) (interrupt_at 2)
                        (demo_world demo_playlist None)).1.2
               = trace (demo_world demo_playlist None)
                 ++ [Print (lit "Loaded 2 channels from in.m3u")])
    by (vm_compute; reflexivity).
  assert (H4 : Forall (λ ev, is_write ev = false)
                 [Print (lit "Loaded 2 channels from in.m3u")])
    by (repeat constructor).
  pose proof (proj2 (@main_interrupt_before_output demo_platform demo_args
                       (interrupt_at 2) (demo_world demo_playlist None)) H1 H2) as H.
  exact (conj H1 (conj H2 (conj (proj1 H) (conj (proj1 (proj2 H))
           (proj2 (proj2 (proj2 (proj2 H))) _ H3 H4))))).
Defined.

(** The small playlist with "\r\n" line endings. *)
Lemma parse_m3u_crlf_lines_witness :
  Forall clean_line crlf_lines
  ∧ files (demo_world crlf_playlist None) !! demo_in = Some (join_lines [CR; LF] crlf_lines)
  ∧ @parse_m3u demo_platform demo_in (demo_world crlf_playlist None)
    = (Return (parse_lines crlf_lines), demo_world crlf_playlist None)
  ∧ Forall (λ l, CR ∉ l) (parse_lines crlf_lines).1
  ∧ Forall (λ en : entry, (CR ∉ en.1) ∧ (CR ∉ en.2)) (parse_lines crlf_lines).2.
Proof.
  assert (H1 : Forall clean_line crlf_lines).
  { apply (bool_decide_eq_true_1 (Forall clean_line crlf_lines)).
    vm_compute. reflexivity. }
  assert (H2 : files (demo_world crlf_playlist None) !! demo_in
               = Some (join_lines [CR; LF] crlf_lines))
    by (vm_compute; reflexivity).
  pose proof (@parse_m3u_crlf_lines demo_platform crlf_lines demo_in demo_out None
                (demo_world crlf_playlist None) H1 H2) as H.
  exact (conj H1 (conj H2 (conj (proj1 H)
           (conj (proj1 (proj2 H)) (proj1 (proj2 (proj2 H))))))).
Defined.

(** ** Further properties of the parser *)

(** What the loop adds to its header lines and entries: lines of the
    file, in the order of the file, header lines first; after the first
    metadata line it adds no header line. *)
Lemma parse_loop_shape ls s h e :
  ∃ h' e',
    parse_loop ls 0 s h e = (h ++ h', e ++ e')
    ∧ (h' ++ entry_lines e') `sublist_of` ls
    ∧ (s = true → h' = []).
Proof.
  remember (length ls) as n eqn:Hn.
  revert ls Hn s h e. induction n as [n IH] using lt_wf_ind.
  intros [|x ls] Hn s h e.
  - exists [], []. rewrite parse_nil, !app_nil_r. by split_and!.
  - simpl in Hn. destruct (is_extinf x) eqn:Ex.
    + destruct (scan_url ls 0) as [u k] eqn:E. destruct (truthy u) eqn:Hu.
      * destruct (scan_url_truthy _ _ _ _ E Hu) as (_ & Hk & _).
        rewrite (parse_cons_entry _ _ _ _ _ u k) by done.
        destruct (IH (length (drop (S k) ls)) ltac:(rewrite length_drop; lia)
                    (drop (S k) ls) eq_refl true h (e ++ [(x, u)]))
          as (h' & e' & -> & Hsub & Hh).
        rewrite (Hh eq_refl) in *. exists [], ((x, u) :: e').
        split_and!; [by rewrite <- app_assoc | | done].
        cbn [app]. change (entry_lines ((x, u) :: e')) with (x :: u :: entry_lines e').
        apply sublist_skip. rewrite <- (take_drop_middle ls k u) by done.
        apply sublist_inserts_l. by apply sublist_skip.
      * rewrite (parse_cons_dangling _ _ _ _ _ u k) by done.
        destruct (IH (length ls) ltac:(lia) ls eq_refl true h e)
          as (h' & e' & -> & Hsub & Hh).
        rewrite (Hh eq_refl) in *. exists [], e'.
        split_and!; [done | by apply sublist_cons | done].
    + destruct s.
      * rewrite parse_cons_other by done.
        destruct (IH (length ls) ltac:(lia) ls eq_refl true h e)
          as (h' & e' & -> & Hsub & Hh).
        exists h', e'. split_and!; [done | by apply sublist_cons | done].
      * rewrite parse_cons_header by done.
        destruct (IH (length ls) ltac:(lia) ls eq_refl false (h ++ [x]) e)
          as (h' & e' & -> & Hsub & _).
        exists (x :: h'), e'.
        split_and!; [by rewrite <- app_assoc | by apply sublist_skip | done].
Qed.

Lemma scan_url_over_skipped mid u rest :
  Forall (λ l, skipped l = true) mid → skipped u = false →
  scan_url (mid ++ u :: rest) 0 = (u, length mid).
Proof.
  intros Hmid Hu. induction Hmid as [|x mid Hx _ IH].
  - by apply scan_url_cons_found.
  - cbn [app]. rewrite scan_url_cons_skip by done. by rewrite IH.
Qed.

(** X1: the lines [parse_m3u] keeps are lines of the file, in the order
    of the file: the header lines followed by the two lines of each entry
    form a subsequence of the lines read, so a file of [n] lines gives at
    most [n] header lines and entry lines together. *)
Theorem parse_m3u_keeps_file_order (content : text) :
  ((parse_text content).1 ++ entry_lines (parse_text content).2)
    `sublist_of` read_lines content
  ∧ length (parse_text content).1 + 2 * length (parse_text content).2
    ≤ length (read_lines content).
Proof.
  unfold parse_text.
  destruct (parse_loop_shape (read_lines content) false [] []) as (h' & e' & -> & Hsub & _).
  cbn [fst snd app]. split; [done|].
  apply sublist_length in Hsub. rewrite length_app in Hsub.
  assert (Hlen : ∀ es, length (entry_lines es) = 2 * length es).
  { induction es as [|[m u] es IHes]; [done|].
    change (entry_lines ((m, u) :: es)) with (m :: u :: entry_lines es).
    simpl in *. lia. }
  rewrite Hlen in Hsub. lia.
Qed.

(** X2: the header lines are the lines before the first metadata line:
    when the lines [hs], none of them a metadata line, are followed by a
    metadata line, the header is [hs], whatever comes after. *)
Theorem parse_m3u_header_before_first_extinf (hs : list text) (m : text)
    (rest : list text) :
  Forall (λ l, is_extinf l = false) hs →
  is_extinf m = true →
  (parse_lines (hs ++ m :: rest)).1 = hs.
Proof.
  intros Hhs Hm. unfold parse_lines. rewrite parse_header_lines by done. cbn [app].
  destruct (scan_url rest 0) as [u k] eqn:E. destruct (truthy u) eqn:Hu.
  - rewrite (parse_cons_entry _ _ _ _ _ u k) by done. cbn [app].
    destruct (parse_loop_shape (drop (S k) rest) true hs [(m, u)])
      as (h' & e' & -> & _ & Hh).
    by rewrite (Hh eq_refl), app_nil_r.
  - rewrite (parse_cons_dangling _ _ _ _ _ u k) by done. cbn [app].
    destruct (parse_loop_shape rest true hs []) as (h' & e' & -> & _ & Hh).
    by rewrite (Hh eq_refl), app_nil_r.
Qed.

(** X3: blank lines and comments between a metadata line and the next
    line that is neither are passed over: the metadata line and that line
    make one entry, and the loop goes on after it; metadata lines in
    between are comments like the others and give no entry of their own. *)
Theorem parse_m3u_skips_to_url (m : text) (mid : list text) (u : text)
    (rest : list text) (s : bool) (h : list text) (e : list entry) :
  is_extinf m = true →
  Forall (λ l, skipped l = true) mid →
  skipped u = false →
  parse_loop (m :: mid ++ u :: rest) 0 s h e
  = parse_loop rest 0 true h (e ++ [(m, u)])
  ∧ parse_lines (m :: mid ++ [u]) = ([], [(m, u)]).
Proof.
  intros Hm Hmid Hu.
  assert (Hgen : ∀ rest' s' h' e',
    parse_loop (m :: mid ++ u :: rest') 0 s' h' e'
    = parse_loop rest' 0 true h' (e' ++ [(m, u)])).
  { intros rest' s' h' e'.
    rewrite (parse_cons_entry _ _ _ _ _ u (length mid));
      [| done | by apply scan_url_over_skipped
       | by apply truthy_true, skipped_nonempty].
    by rewrite drop_app_ge, Nat.sub_succ_l, Nat.sub_diag by lia. }
  split; [apply Hgen|]. unfold parse_lines. by rewrite Hgen, parse_nil.
Qed.

(** X4: a playlist in the regular form parses to what it is made of:
    header lines, none of them a metadata line, followed by entries, each
    a metadata line and a link line, all without line-ending characters,
    written one per line, give back those header lines and entries. *)
Theorem parse_m3u_regular_playlist (hs : list text) (es : list entry) :
  Forall (λ l, is_extinf l = false ∧ clean_line l) hs →
  Forall (λ en : entry, entry_ok en ∧ clean_line en.1 ∧ clean_line en.2) es →
  parse_text (playlist_text hs es) = (hs, es).
Proof.
  intros Hhs Hes. unfold parse_text, playlist_text.
  rewrite read_lines_join.
  - apply parse_lines_playlist.
    + eapply Forall_impl; [done | by intros ? [? ?]].
    + eapply Forall_impl; [done | by intros ? [? ?]].
  - apply Forall_app. split.
    + eapply Forall_impl; [done | by intros ? [? ?]].
    + apply entry_lines_Forall. eapply Forall_impl; [done | by intros ? (? & ? & ?)].
Qed.

(** ** Further properties of the reading of lines *)

Lemma universal_newlines_cr l rest :
  CR ∉ l → head rest ≠ Some LF →
  universal_newlines (l ++ CR :: rest) = l ++ LF :: universal_newlines rest.
Proof.
  intros Hl Hrest. induction l as [|c l IH].
  - destruct rest as [|d rest]; [done|].
    change (universal_newlines ([] ++ CR :: d :: rest)) with
      (LF :: (if (d =? LF)%N then universal_newlines rest
              else universal_newlines (d :: rest))).
    destruct (N.eqb_spec d LF) as [->|Hd]; [by destruct Hrest | done].
  - apply not_elem_of_cons in Hl as [Hc Hl].
    change ((c :: l) ++ CR :: rest) with (c :: (l ++ CR :: rest)).
    cbn [universal_newlines]. destruct (N.eqb_spec c CR); [congruence|].
    by rewrite IH.
Qed.

Lemma join_lines_cr_head ls :
  Forall clean_line ls → head (join_lines [CR] ls) ≠ Some LF.
Proof.
  intros [|l ls' [_ Hl] _]; [done|].
  change (join_lines [CR] (l :: ls')) with ((l ++ [CR]) ++ join_lines [CR] ls').
  destruct l as [|c l]; [done|].
  apply not_elem_of_cons in Hl as [Hc _]. simpl. congruence.
Qed.

Lemma universal_newlines_join_cr ls :
  Forall clean_line ls → universal_newlines (join_lines [CR] ls) = join_lines [LF] ls.
Proof.
  induction 1 as [|l ls [Hl _] Hls IH]; [done|].
  change (join_lines [CR] (l :: ls)) with ((l ++ [CR]) ++ join_lines [CR] ls).
  change (join_lines [LF] (l :: ls)) with ((l ++ [LF]) ++ join_lines [LF] ls).
  rewrite <- !app_assoc. cbn [app].
  rewrite universal_newlines_cr; [by rewrite IH | done | by apply join_lines_cr_head].
Qed.

(** X5: the lines read do not depend on how the file ends its lines: a
    file that ends them with a lone carriage return gives the same lines
    as one that ends them with a newline, and a last line gives the same
    line with and without a line ending after it. *)
Theorem read_lines_line_endings (ls : list text) (l : text) :
  Forall clean_line ls →
  clean_line l →
  l ≠ [] →
  read_lines (join_lines [CR] ls) = ls
  ∧ parse_text (join_lines [CR] ls) = parse_lines ls
  ∧ read_lines (join_lines [LF] ls ++ l) = ls ++ [l]
  ∧ parse_text (join_lines [LF] ls ++ l) = parse_text (join_lines [LF] (ls ++ [l])).
Proof.
  intros Hls [HlCR HlLF] Hne.
  assert (H1 : read_lines (join_lines [CR] ls) = ls).
  { rewrite <- (read_lines_join ls) at 2 by done. unfold read_lines.
    rewrite universal_newlines_join_cr by done.
    by rewrite (universal_newlines_id (join_lines [LF] ls))
      by by apply join_lines_no_CR. }
  assert (H2 : read_lines (join_lines [LF] ls ++ l) = ls ++ [l]).
  { unfold read_lines. rewrite universal_newlines_id.
    - rewrite iter_lines_join_app
        by (eapply Forall_impl; [done | by intros ? [? ?]]).
      rewrite (iter_lines_last [] l) by done. cbn [app].
      rewrite fmap_app. cbn [fmap list_fmap]. rewrite rstrip_newline_id by done.
      f_equal. clear -Hls. induction Hls as [|x xs [_ Hx] _ IH]; [done|].
      cbn [fmap list_fmap]. rewrite rstrip_newline_snoc by done. by f_equal.
    - apply not_elem_of_app. split; [by apply join_lines_no_CR | done]. }
  split_and!; [done | by unfold parse_text; rewrite H1 | done |].
  unfold parse_text. rewrite H2, read_lines_join; [done|].
  apply Forall_app. split; [done | by repeat constructor].
Qed.

(** ** Further properties of runs *)

Section MoreRuns.

Context `{P : Platform}.

Lemma visited_nil max_channels idx : visited max_channels idx [] = [].
Proof. destruct max_channels; [apply take_nil | done]. Qed.

Lemma visited_over max_channels idx rest :
  over_limit max_channels idx = true → visited max_channels idx rest = [].
Proof.
  destruct max_channels as [k|]; [|done]. simpl. intros Hk.
  by replace (Z.to_nat (k - idx + 1)) with 0 by lia.
Qed.

Lemma visited_cons max_channels idx en rest :
  over_limit max_channels idx = false →
  visited max_channels idx (en :: rest) = en :: visited max_channels (idx + 1) rest.
Proof.
  destruct max_channels as [k|]; [|done]. simpl. intros Hk.
  by replace (Z.to_nat (k - idx + 1)) with (S (Z.to_nat (k - (idx + 1) + 1))) by lia.
Qed.

(** A run of the loop that ends normally: it visits every entry that the
    limit allows, one after the other, and each visit is the line that
    announces it, the probe, the line of the verdict and the pause; the
    entries with the verdict true are appended to the working entries. *)
Lemma clean_loop_return n max_channels rest : ∀ idx acc w acc',
  (clean_loop n max_channels idx rest acc w).1 = Return acc' →
  ∃ verdicts,
    length verdicts = length (visited max_channels idx rest)
    ∧ steps w (clean_loop n max_channels idx rest acc w).2
        (loop_events n idx (zip (visited max_channels idx rest) verdicts))
    ∧ acc' = acc ++ kept_of (zip (visited max_channels idx rest) verdicts).
Proof.
  induction rest as [|[extinf url] rest IH]; intros idx acc w acc' Hret.
  - rewrite visited_nil. exists []. simpl in *. inversion Hret; subst.
    split_and!; [done | apply steps_refl | by rewrite app_nil_r].
  - cbn [clean_loop] in *. destruct (over_limit max_channels idx) eqn:Hlim.
    { rewrite visited_over by done. exists []. simpl in *. inversion Hret; subst.
      split_and!; [done | apply steps_refl | by rewrite app_nil_r]. }
    rewrite visited_cons by done.
    rewrite bind_run, print_run in *. set (w1 := Build_World _ _ _) in *.
    assert (S1 : steps w w1 [Print (testing_line n idx url)]) by done.
    rewrite bind_run in *.
    pose proof (test_url_steps url default_timeout w1) as S2.
    destruct (test_url url default_timeout w1) as [[ok|ex] w2]; [|done].
    cbn [snd] in S2. rewrite bind_run in *.
    set (acc1 := if ok then acc ++ [(extinf, url)] else acc).
    set (w3 := Build_World (files w2) (trace w2 ++ [Print (verdict_line ok)]) (env w2)).
    assert (E3 : (if ok
                  then print (lit "  " ++ [ARROW] ++ lit " OK") ≫=
                       (λ _, ret (acc ++ [(extinf, url)]))
                  else print (lit "  " ++ [ARROW] ++ lit " FAILED") ≫=
                       (λ _, ret acc)) w2 = (Return acc1, w3)).
    { subst acc1 w3. by destruct ok. }
    rewrite E3 in *. clear E3.
    assert (S3 : steps w2 w3 [Print (verdict_line ok)]) by done.
    rewrite bind_run in *.
    pose proof (time_sleep_steps (3 # 10) w3) as S4.
    destruct (time_sleep (3 # 10) w3) as [[[]|ex] w4]; [|done].
    cbn [snd] in S4.
    destruct (IH (idx + 1)%Z acc1 w4 acc' Hret) as (verdicts & Hlen & S5 & Hacc).
    exists (ok :: verdicts). split_and!.
    + simpl. by rewrite Hlen.
    + exact (steps_trans _ _ _ _ _ S1 (steps_trans _ _ _ _ _ S2
               (steps_trans _ _ _ _ _ S3 (steps_trans _ _ _ _ _ S4 S5)))).
    + rewrite Hacc. subst acc1. cbn [zip zip_with kept_of omap snd fst].
      destruct ok; [by rewrite <- app_assoc | done].
Qed.

Lemma probes_loop_events n idx vis verdicts :
  length verdicts = length vis →
  probes (loop_events n idx (zip vis verdicts)) = (snd <$> vis).
Proof.
  revert idx verdicts. induction vis as [|en vis IH]; intros idx [|ok verdicts] Hlen;
    try done.
  simpl in Hlen. cbn [zip zip_with loop_events]. rewrite probes_app.
  rewrite IH by lia. done.
Qed.

(** From the loop to the end of [clean_m3u]. *)
Lemma clean_m3u_after_loop input_path output_path max_channels w content :
  files w !! input_path = Some content →
  let hs := (parse_text content).1 in
  let es := (parse_text content).2 in
  let loaded := Print (lit "Loaded " ++ str_of_Z (Z.of_nat (length es))
                       ++ lit " channels from " ++ input_path) in
  let w1 := Build_World (files w) (trace w ++ [loaded]) (env w) in
  match clean_loop (length es) max_channels 1 es [] w1 with
  | (Raise ex, w2) =>
      clean_m3u input_path output_path max_channels w = (Raise ex, w2)
  | (Return kept, w2) =>
      ∃ wevs,
        clean_m3u input_path output_path max_channels w
        = (Return (),
           Build_World
             (<[output_path := playlist_text (ensure_marker hs) kept]> (files w2))
             (trace w2
              ++ Print ([LF] ++ lit "Working channels: "
                        ++ str_of_Z (Z.of_nat (length kept)))
                 :: OpenWrite output_path :: wevs)
             (env w2))
        ∧ Forall (λ ev, is_validation ev = false) wevs
  end.
Proof.
  intros Hc hs es loaded w1. unfold clean_m3u.
  rewrite bind_run, (parse_m3u_run _ _ content) by done.
  subst hs es loaded w1. destruct (parse_text content) as [hs es]. cbn [fst snd].
  rewrite bind_run, print_run. rewrite bind_run.
  destruct (clean_loop (length es) max_channels 1 es [] _) as [[kept|ex] w2]; [|done].
  rewrite bind_run, print_run. set (w3 := Build_World _ _ _).
  destruct (write_playlist_run output_path (ensure_marker hs) kept w3)
    as (wevs & E & Hv).
  exists (wevs ++ [Print (lit "Cleaned playlist written to: " ++ output_path)]).
  split; [|apply Forall_app; split; [done | by repeat constructor]].
  rewrite bind_run, E, print_run. cbn [files trace env w3].
  f_equal. f_equal. rewrite <- !app_assoc. by cbn [app].
Qed.

(** A run of [clean_m3u] that ends normally, event by event. *)
Lemma clean_m3u_return input_path output_path max_channels w content :
  files w !! input_path = Some content →
  (clean_m3u input_path output_path max_channels w).1 = Return () →
  let hs := (parse_text content).1 in
  let es := (parse_text content).2 in
  ∃ verdicts wevs,
    length verdicts = length (visited max_channels 1 es)
    ∧ Forall (λ ev, is_validation ev = false) wevs
    ∧ files (clean_m3u input_path output_path max_channels w).2
      = <[output_path := playlist_text (ensure_marker hs)
                           (kept_of (zip (visited max_channels 1 es) verdicts))]>
          (files w)
    ∧ trace (clean_m3u input_path output_path max_channels w).2
      = trace w
        ++ [Print (lit "Loaded " ++ str_of_Z (Z.of_nat (length es))
                   ++ lit " channels from " ++ input_path)]
        ++ loop_events (length es) 1 (zip (visited max_channels 1 es) verdicts)
        ++ [Print ([LF] ++ lit "Working channels: "
                   ++ str_of_Z (Z.of_nat (length
                        (kept_of (zip (visited max_channels 1 es) verdicts)))))]
        ++ OpenWrite output_path :: wevs.
Proof.
  intros Hc Hret hs es.
  pose proof (clean_m3u_after_loop input_path output_path max_channels w content Hc)
    as Hafter. cbn zeta in Hafter. fold hs es in Hafter.
  set (w1 := Build_World _ _ _) in Hafter.
  pose proof (clean_loop_return (length es) max_channels es 1 [] w1) as Hloop.
  destruct (clean_loop (length es) max_channels 1 es [] w1) as [[kept|ex] w2].
  2:{ rewrite Hafter in Hret. done. }
  destruct Hafter as (wevs & E & Hv).
  destruct (Hloop kept eq_refl) as (verdicts & Hlen & [F T] & Hkept).
  cbn [snd app] in F, T, Hkept. subst kept.
  exists verdicts, wevs. rewrite E. cbn [snd files trace].
  split_and!; [done | done | by rewrite F |].
  rewrite T. cbn [trace w1]. rewrite <- !app_assoc. by cbn [app].
Qed.

Lemma validations_app t1 t2 : validations (t1 ++ t2) = validations t1 ++ validations t2.
Proof. apply omap_app. Qed.

Lemma validations_no_validation t :
  Forall (λ ev, is_validation ev = false) t → validations t = [].
Proof.
  induction 1 as [|ev t Hev _ IH]; [done|].
  unfold validations in *. cbn [omap list_omap]. by rewrite Hev.
Qed.

Lemma validations_loop_events n idx vis verdicts :
  length verdicts = length vis →
  validations (loop_events n idx (zip vis verdicts))
  = concat ((λ en : entry, [Probe en.2; Sleep (3 # 10)]) <$> vis).
Proof.
  revert idx verdicts. induction vis as [|en vis IH]; intros idx [|ok verdicts] Hlen;
    try done.
  simpl in Hlen. cbn [zip zip_with loop_events]. rewrite validations_app.
  rewrite IH by lia. done.
Qed.

(** X6: in a run of [clean_m3u] that ends normally, every entry up to
    the limit, every entry when there is none, is handed to [test_url]
    once, in the order of the playlist, and each probe is followed by one
    pause of 0.3 seconds before the next probe: the probes and pauses of
    the run are, in this order, the probe of the first entry visited, a
    pause, the probe of the second, a pause, and so on. *)
Theorem clean_m3u_probes_each_once (input_path output_path : text)
    (max_channels : option Z) (w : World) (content : text) :
  files w !! input_path = Some content →
  (clean_m3u input_path output_path max_channels w).1 = Return () →
  validations (trace (clean_m3u input_path output_path max_channels w).2)
  = validations (trace w)
    ++ concat ((λ en : entry, [Probe en.2; Sleep (3 # 10)])
               <$> visited max_channels 1 (parse_text content).2).
Proof.
  intros Hc Hret.
  destruct (clean_m3u_return _ _ _ _ _ Hc Hret) as (verdicts & wevs & Hlen & Hv & _ & Ht).
  rewrite Ht. rewrite !validations_app, validations_loop_events by done.
  change (validations (OpenWrite output_path :: wevs)) with (validations wevs).
  rewrite (validations_no_validation wevs) by done. simpl. by rewrite app_nil_r.
Qed.

(** X7: in a run of [clean_m3u] that ends normally, the entries written
    are the visited entries whose verdict line was " OK", in order, and
    the count printed after the loop is their number: the events are the
    line with the number of entries, the four events of each visit, the
    line with the count, and then the writing of the file. *)
Theorem clean_m3u_writes_entries_with_ok (input_path output_path : text)
    (max_channels : option Z) (w : World) (content : text) :
  files w !! input_path = Some content →
  (clean_m3u input_path output_path max_channels w).1 = Return () →
  ∃ verdicts wevs,
    length verdicts = length (visited max_channels 1 (parse_text content).2)
    ∧ Forall (λ ev, is_validation ev = false) wevs
    ∧ files (clean_m3u input_path output_path max_channels w).2 !! output_path
      = Some (playlist_text (ensure_marker (parse_text content).1)
                (kept_of (zip (visited max_channels 1 (parse_text content).2) verdicts)))
    ∧ trace (clean_m3u input_path output_path max_channels w).2
      = trace w
        ++ [Print (lit "Loaded " ++ str_of_Z (Z.of_nat (length (parse_text content).2))
                   ++ lit " channels from " ++ input_path)]
        ++ loop_events (length (parse_text content).2) 1
             (zip (visited max_channels 1 (parse_text content).2) verdicts)
        ++ [Print ([LF] ++ lit "Working channels: "
                   ++ str_of_Z (Z.of_nat (length
                        (kept_of (zip (visited max_channels 1 (parse_text content).2)
                                    verdicts)))))]
        ++ OpenWrite output_path :: wevs.
Proof.
  intros Hc Hret.
  destruct (clean_m3u_return _ _ _ _ _ Hc Hret) as (verdicts & wevs & Hlen & Hv & Hf & Ht).
  exists verdicts, wevs. split_and!; [done | done | | done].
  rewrite Hf. apply lookup_insert_eq.
Qed.

(** X9: without the input file nothing happens but the error: [clean_m3u]
    and [main] end with the [OSError] of [open], in the world they started
    in (nothing printed, no probe, no file written), and the exit status
    is 1. *)
Theorem main_without_input_file (args : Args) (w : World) :
  files w !! input args = None →
  clean_m3u (input args) (output args) (max_channels args) w = (Raise OSError, w)
  ∧ main args w = (Raise OSError, w)
  ∧ exit_status (main args w).1 = 1%Z.
Proof.
  intros Hc.
  assert (E : main args w = (Raise OSError, w)).
  { unfold main, try_except. by rewrite clean_m3u_no_input. }
  split_and!; [by apply clean_m3u_no_input | done | by rewrite E].
Qed.

Lemma ensure_marker_idem hs : ensure_marker (ensure_marker hs) = ensure_marker hs.
Proof.
  assert (HM : ∀ t, ensure_marker (EXTM3U :: t) = EXTM3U :: t).
  { intros t. unfold ensure_marker. change ((EXTM3U :: t) !!! 0) with EXTM3U.
    by replace (startswith EXTM3U (strip EXTM3U)) with true by by vm_compute. }
  destruct hs as [|h t]; [apply (HM [])|].
  assert (E0 : ensure_marker (h :: t)
               = if startswith EXTM3U (strip h) then h :: t else EXTM3U :: h :: t).
  { unfold ensure_marker. change ((h :: t) !!! 0) with h. cbn [truthy negb orb].
    by destruct (startswith EXTM3U (strip h)). }
  destruct (startswith EXTM3U (strip h)) eqn:E; rewrite !E0; [done | apply HM].
Qed.

Lemma ensure_marker_Forall (Q : text → Prop) hs :
  Q EXTM3U → Forall Q hs → Forall Q (ensure_marker hs).
Proof.
  intros HQ Hhs. unfold ensure_marker.
  destruct (_ || _); [by constructor | done].
Qed.

Lemma EXTM3U_header_line : is_extinf EXTM3U = false ∧ clean_line EXTM3U.
Proof.
  split; [by vm_compute|].
  split; [apply (bool_decide_eq_false_1 (CR ∈ EXTM3U)); by vm_compute
         | apply EXTM3U_no_LF].
Qed.

(** X10: the file [clean_m3u] writes is a playlist it reads back as it
    wrote it: parsed again, it gives the header lines with the marker
    ensured and the entries written, and its header needs no marker
    added. *)
Theorem clean_m3u_output_parses_back (input_path output_path : text)
    (max_channels : option Z) (w : World) (content : text) :
  files w !! input_path = Some content →
  (clean_m3u input_path output_path max_channels w).1 = Return () →
  ∃ written kept,
    files (clean_m3u input_path output_path max_channels w).2 !! output_path
    = Some written
    ∧ kept `sublist_of` (parse_text content).2
    ∧ parse_text written = (ensure_marker (parse_text content).1, kept)
    ∧ ensure_marker (parse_text written).1 = (parse_text written).1.
Proof.
  intros Hc Hret.
  destruct (clean_m3u_run input_path output_path max_channels w content Hc)
    as (evs & m & _ & _ & _ & _ & Hout).
  rewrite Hret in Hout. destruct Hout as (kept & wevs & Hsub & _ & Hf & _).
  assert (Hsub' : kept `sublist_of` (parse_text content).2).
  { etrans; [done | apply sublist_take]. }
  destruct (parse_text_invariant content) as [Hh He].
  assert (Hp : parse_text (playlist_text (ensure_marker (parse_text content).1) kept)
               = (ensure_marker (parse_text content).1, kept)).
  { unfold parse_text at 1, playlist_text.
    assert (Hk : Forall (λ en : entry, entry_ok en ∧ clean_line en.1 ∧ clean_line en.2)
                   kept).
    { apply Forall_forall. intros en Hen. rewrite Forall_forall in He.
      apply He. by eapply elem_of_sublist. }
    pose proof (ensure_marker_Forall _ _ EXTM3U_header_line Hh) as Hm.
    rewrite read_lines_join.
    - apply parse_lines_playlist.
      + eapply Forall_impl; [done | by intros ? [? ?]].
      + eapply Forall_impl; [done | by intros ? [? ?]].
    - apply Forall_app. split.
      + eapply Forall_impl; [done | by intros ? [? ?]].
      + apply entry_lines_Forall. eapply Forall_impl; [done | by intros ? (? & ? & ?)]. }
  eexists _, kept. rewrite Hf, lookup_insert_eq. split_and!; [done | done | done |].
  rewrite Hp. apply ensure_marker_idem.
Qed.

(** Without network no probe gives true. *)
Lemma test_url_no_network url timeout w :
  (∀ req t e, ∃ ex, (urlopen req t e).1 = Raise ex ∧ is_Exception ex = true) →
  (test_url url timeout w).1 ≠ Return true.
Proof.
  intros Hnet. destruct (Request url user_agent) as [req|ex0] eqn:HR.
  - rewrite (test_url_guarded _ _ _ req HR).
    destruct (Hnet req timeout (env w)) as (ex & E & Hex).
    destruct (urlopen req timeout (env w)) as [[resp|ex'] e1]; [done|].
    simpl in E. inversion E; subst. by rewrite Hex.
  - by rewrite (test_url_Request_raises _ _ _ ex0 HR).
Qed.

(** Without network a loop that ends normally has printed the verdict
    " FAILED" for every entry it visited, and kept none. *)
Lemma clean_loop_no_network n max_channels rest : ∀ idx acc w acc',
  (∀ req t e, ∃ ex, (urlopen req t e).1 = Raise ex ∧ is_Exception ex = true) →
  (clean_loop n max_channels idx rest acc w).1 = Return acc' →
  acc' = acc
  ∧ steps w (clean_loop n max_channels idx rest acc w).2
      (loop_events n idx
         (zip (visited max_channels idx rest)
            (replicate (length (visited max_channels idx rest)) false))).
Proof.
  induction rest as [|[extinf url] rest IH]; intros idx acc w acc' Hnet Hret.
  - rewrite visited_nil. simpl in *. inversion Hret; subst.
    split; [done | apply steps_refl].
  - cbn [clean_loop] in *. destruct (over_limit max_channels idx) eqn:Hlim.
    { rewrite visited_over by done. simpl in *. inversion Hret; subst.
      split; [done | apply steps_refl]. }
    rewrite visited_cons by done.
    rewrite bind_run, print_run in *. set (w1 := Build_World _ _ _) in *.
    assert (S1 : steps w w1 [Print (testing_line n idx url)]) by done.
    rewrite bind_run in *.
    pose proof (test_url_steps url default_timeout w1) as S2.
    pose proof (test_url_no_network url default_timeout w1 Hnet) as Hno.
    destruct (test_url url default_timeout w1) as [[ok|ex] w2]; [|done].
    destruct ok; [done|]. clear Hno.
    cbn [snd] in S2. rewrite bind_run, bind_run, print_run in *. cbn [ret] in *.
    set (w3 := Build_World (files w2) _ (env w2)) in *.
    assert (S3 : steps w2 w3 [Print (verdict_line false)]) by done.
    rewrite bind_run in *.
    pose proof (time_sleep_steps (3 # 10) w3) as S4.
    destruct (time_sleep (3 # 10) w3) as [[[]|ex] w4]; [|done].
    cbn [snd] in S4.
    destruct (IH (idx + 1)%Z acc w4 acc' Hnet Hret) as [-> S5].
    split; [done|]. cbn [length replicate zip zip_with loop_events].
    exact (steps_trans _ _ _ _ _ S1 (steps_trans _ _ _ _ _ S2
             (steps_trans _ _ _ _ _ S3 (steps_trans _ _ _ _ _ S4 S5)))).
Qed.

(** X11: when no request gets through (every [urlopen] ends with an
    exception of class [Exception]), a run of [clean_m3u] that ends
    normally has printed the verdict " FAILED" for every entry it
    visited and the count 0, and the file it has written holds the header
    lines of the input, each followed by "\n", after the line "#EXTM3U"
    when the header does not start with the marker, and no entry. *)
Theorem clean_m3u_offline (input_path output_path : text)
    (max_channels : option Z) (w : World) (content : text) :
  (∀ req t e, ∃ ex, (urlopen req t e).1 = Raise ex ∧ is_Exception ex = true) →
  files w !! input_path = Some content →
  (clean_m3u input_path output_path max_channels w).1 = Return () →
  let hs := (parse_text content).1 in
  let es := (parse_text content).2 in
  let vis := visited max_channels 1 es in
  files (clean_m3u input_path output_path max_channels w).2 !! output_path
  = Some (join_lines [LF] (if has_marker hs then hs else EXTM3U :: hs))
  ∧ ∃ wevs,
      trace (clean_m3u input_path output_path max_channels w).2
      = trace w
        ++ [Print (lit "Loaded " ++ str_of_Z (Z.of_nat (length es))
                   ++ lit " channels from " ++ input_path)]
        ++ loop_events (length es) 1 (zip vis (replicate (length vis) false))
        ++ [Print ([LF] ++ lit "Working channels: " ++ str_of_Z 0)]
        ++ OpenWrite output_path :: wevs
      ∧ Forall (λ ev, is_validation ev = false) wevs.
Proof.
  intros Hnet Hc Hret hs es vis.
  pose proof (clean_m3u_after_loop input_path output_path max_channels w content Hc)
    as Hafter. cbn zeta in Hafter. fold hs es in Hafter.
  set (w1 := Build_World _ _ _) in Hafter.
  pose proof (clean_loop_no_network (length es) max_channels es 1 [] w1) as Hloop.
  destruct (clean_loop (length es) max_channels 1 es [] w1) as [[kept|ex] w2].
  2:{ rewrite Hafter in Hret. done. }
  destruct (Hloop kept Hnet eq_refl) as [-> [_ T]]. cbn [snd] in T.
  destruct Hafter as (wevs & E & Hv). rewrite E. cbn [snd files trace].
  split.
  - rewrite lookup_insert_eq. unfold playlist_text.
    cbn [entry_lines fmap list_fmap concat].
    by rewrite app_nil_r, ensure_marker_has_marker.
  - exists wevs. split; [|done]. rewrite T. cbn [trace w1 length].
    rewrite <- !app_assoc. by cbn [app].
Qed.

(** X12: for a link the request can be built from, [test_url] returns
    true exactly when [urlopen] hands back a response, its status is in
    [200, 300), and the read of up to 1024 bytes gives at least one byte;
    it returns false when [urlopen] or the read ends with an exception of
    class [Exception]. *)
Theorem test_url_true_iff (url : text) (timeout : Q) (w : World) (req : request) :
  Request url user_agent = Return req →
  ((test_url url timeout w).1 = Return true
   ↔ ∃ resp e1 chunk e2,
       urlopen req timeout (env w) = (Return resp, e1)
       ∧ (200 ≤ status resp < 300)%Z
       ∧ read resp 1024 e1 = (Return chunk, e2)
       ∧ chunk ≠ [])
  ∧ (∀ ex e1, urlopen req timeout (env w) = (Raise ex, e1) →
              is_Exception ex = true → (test_url url timeout w).1 = Return false)
  ∧ (∀ resp e1 ex e2, urlopen req timeout (env w) = (Return resp, e1) →
                      read resp 1024 e1 = (Raise ex, e2) →
                      is_Exception ex = true →
                      (test_url url timeout w).1 = Return false).
Proof.
  intros HR. rewrite (test_url_guarded _ _ _ req HR).
  destruct (urlopen req timeout (env w)) as [[resp|ex] e1] eqn:Eo.
  - destruct ((status resp <? 200)%Z || (status resp >=? 300)%Z) eqn:Hst.
    + split_and!.
      * split; [done|]. intros (resp' & e1' & chunk & e2 & E & Hr & _).
        inversion E; subst. lia.
      * intros ex e1' E. inversion E.
      * done.
    + destruct (read resp 1024 e1) as [[chunk|ex] e2] eqn:Er0.
      * split_and!.
        -- split.
           ++ intros Ht. exists resp, e1, chunk, e2.
              repeat split; [lia | lia | done | by destruct chunk].
           ++ intros (resp' & e1' & chunk' & e2' & E & _ & Er & Hne).
              inversion E; subst. rewrite Er0 in Er. inversion Er; subst.
              by destruct chunk'.
        -- intros ex e1' E. inversion E.
        -- intros resp' e1' ex e2' E Er. inversion E; subst.
           rewrite Er0 in Er. inversion Er.
      * split_and!.
        -- split; [by destruct (is_Exception ex)|].
           intros (resp' & e1' & chunk' & e2' & E & _ & Er & _).
           inversion E; subst. rewrite Er0 in Er. inversion Er.
        -- intros ex' e1' E. inversion E.
        -- intros resp' e1' ex' e2' E Er Hex. inversion E; subst.
           rewrite Er0 in Er. inversion Er; subst. by rewrite Hex.
  - split_and!.
    + split; [by destruct (is_Exception ex)|].
      intros (resp' & e1' & chunk' & e2' & E & _). inversion E.
    + intros ex' e1' E Hex. inversion E; subst. by rewrite Hex.
    + intros resp' e1' ex' e2' E. inversion E.
Qed.


(** A loop that ends normally has built the request of every entry it
    visited. *)
Lemma clean_loop_return_schemes n max_channels rest : ∀ idx acc w acc',
  (clean_loop n max_channels idx rest acc w).1 = Return acc' →
  Forall (λ en : entry, has_scheme false (splittag_path (unwrap en.2)) = true)
    (visited max_channels idx rest).
Proof.
  induction rest as [|[extinf url] rest IH]; intros idx acc w acc' Hret.
  - rewrite visited_nil. constructor.
  - cbn [clean_loop] in Hret. destruct (over_limit max_channels idx) eqn:Hlim.
    { rewrite visited_over by done. constructor. }
    rewrite visited_cons by done.
    rewrite bind_run, print_run in Hret. set (w1 := Build_World _ _ _) in Hret.
    rewrite bind_run in Hret.
    assert (Hs : has_scheme false (splittag_path (unwrap url)) = true).
    { destruct (has_scheme false (splittag_path (unwrap url))) eqn:Hs; [done|].
      rewrite (surjective_pairing (test_url url default_timeout w1)) in Hret.
      rewrite (test_url_Request_raises _ _ _ ValueError) in Hret; [done|].
      unfold Request. by rewrite Hs. }
    constructor; [done|].
    destruct (test_url url default_timeout w1) as [[ok|ex] w2]; [|done].
    rewrite bind_run in Hret.
    destruct ((if ok
               then print (lit "  " ++ [ARROW] ++ lit " OK") ≫=
                    (λ _, ret (acc ++ [(extinf, url)]))
               else print (lit "  " ++ [ARROW] ++ lit " FAILED") ≫=
                    (λ _, ret acc)) w2) as [[acc1|ex] w3]; [|done].
    rewrite bind_run in Hret.
    destruct (time_sleep (3 # 10) w3) as [[[]|ex] w4]; [|done].
    by eapply IH.
Qed.

(** X14: one link without a scheme among the entries to visit and the
    run is lost: [clean_m3u] ends with an exception, [main] does not end
    normally, and no file is written, whatever the other probes gave. *)
Theorem clean_m3u_lost_without_scheme (args : Args) (w : World) (content : text)
    (en : entry) :
  files w !! input args = Some content →
  en ∈ visited (max_channels args) 1 (parse_text content).2 →
  has_scheme false (splittag_path (unwrap en.2)) = false →
  (∃ ex, (clean_m3u (input args) (output args) (max_channels args) w).1 = Raise ex)
  ∧ files (clean_m3u (input args) (output args) (max_channels args) w).2 = files w
  ∧ (main args w).1 ≠ Return ()
  ∧ files (main args w).2 = files w.
Proof.
  intros Hc Hen Hs.
  pose proof (clean_m3u_after_loop (input args) (output args) (max_channels args)
                w content Hc) as Hafter. cbn zeta in Hafter.
  set (w1 := Build_World _ _ _) in Hafter.
  pose proof (clean_loop_return_schemes (length (parse_text content).2)
                (max_channels args) (parse_text content).2 1 [] w1) as Hloop.
  pose proof (clean_loop_run (length (parse_text content).2) (max_channels args)
                (parse_text content).2 1 [] w1) as (evs & m & [F _] & _) .
  destruct (clean_loop _ (max_channels args) 1 _ [] w1) as [[kept|ex] w2].
  { specialize (Hloop kept eq_refl). rewrite Forall_forall in Hloop.
    specialize (Hloop en Hen). congruence. }
  cbn [snd] in F.
  assert (Hf : files (clean_m3u (input args) (output args) (max_channels args) w).2
               = files w) by by rewrite Hafter.
  split_and!; [by exists ex; rewrite Hafter | done | |].
  - unfold main, try_except. rewrite Hafter.
    by destruct (is_KeyboardInterrupt ex).
  - unfold main, try_except. rewrite Hafter.
    by destruct (is_KeyboardInterrupt ex).
Qed.

End MoreRuns.

(** ** The further properties at work *)

(** The header of the playlist with comments. *)
Lemma parse_m3u_header_before_first_extinf_witness :
  Forall (λ l, is_extinf l = false) [lit "#EXTM3U"]
  ∧ is_extinf (lit "#EXTINF:-1,Channel A") = true
  ∧ (parse_lines commented_lines).1 = [lit "#EXTM3U"].
Proof.
  assert (H1 : Forall (λ l, is_extinf l = false) [lit "#EXTM3U"])
    by (repeat constructor).
  assert (H2 : is_extinf (lit "#EXTINF:-1,Channel A") = true)
    by (vm_compute; reflexivity).
  exact (conj H1 (conj H2
    (parse_m3u_header_before_first_extinf [lit "#EXTM3U"] (lit "#EXTINF:-1,Channel A")
       [lit "#EXTVLCOPT:network-caching=1000"; [];
        lit "#EXTINF:-1,Channel A again"; lit "http://good.example/stream";
        lit "trailing text"] H1 H2))).
Defined.

(** The entry of the playlist with comments: the first metadata line
    gets the link, the second gets nothing. *)
Lemma parse_m3u_skips_to_url_witness :
  is_extinf (lit "#EXTINF:-1,Channel A") = true
  ∧ Forall (λ l, skipped l = true)
      [lit "#EXTVLCOPT:network-caching=1000"; []; lit "#EXTINF:-1,Channel A again"]
  ∧ skipped (lit "http://good.example/stream") = false
  ∧ parse_lines (lit "#EXTINF:-1,Channel A"
                 :: [lit "#EXTVLCOPT:network-caching=1000"; [];
                     lit "#EXTINF:-1,Channel A again"]
                 ++ [lit "http://good.example/stream"])
    = ([], [(lit "#EXTINF:-1,Channel A", lit "http://good.example/stream")]).
Proof.
  assert (H1 : is_extinf (lit "#EXTINF:-1,Channel A") = true)
    by (vm_compute; reflexivity).
  assert (H2 : Forall (λ l, skipped l = true)
                 [lit "#EXTVLCOPT:network-caching=1000"; [];
                  lit "#EXTINF:-1,Channel A again"])
    by (repeat constructor).
  assert (H3 : skipped (lit "http://good.example/stream") = false)
    by (vm_compute; reflexivity).
  exact (conj H1 (conj H2 (conj H3 (proj2
    (parse_m3u_skips_to_url _ _ _ [] false [] [] H1 H2 H3))))).
Defined.

(** The small regular playlist, with its indented metadata line and its
    link followed by spaces. *)
Lemma parse_m3u_regular_playlist_witness :
  Forall (λ l, is_extinf l = false ∧ clean_line l) regular_header
  ∧ Forall (λ en : entry, entry_ok en ∧ clean_line en.1 ∧ clean_line en.2)
      regular_entries
  ∧ parse_text (playlist_text regular_header regular_entries)
    = (regular_header, regular_entries).
Proof.
  assert (H1 : Forall (λ l, is_extinf l = false ∧ clean_line l) regular_header).
  { apply (bool_decide_eq_true_1 (Forall _ regular_header)). vm_compute. reflexivity. }
  assert (H2 : Forall (λ en : entry, entry_ok en ∧ clean_line en.1 ∧ clean_line en.2)
                 regular_entries).
  { apply (bool_decide_eq_true_1 (Forall _ regular_entries)). vm_compute. reflexivity. }
  exact (conj H1 (conj H2 (parse_m3u_regular_playlist _ _ H1 H2))).
Defined.

(** The small playlist with lone carriage returns, and with a last line
    that has no line ending. *)
Lemma read_lines_line_endings_witness :
  Forall clean_line crlf_lines
  ∧ clean_line (lit "# the end")
  ∧ lit "# the end" ≠ []
  ∧ read_lines (join_lines [CR] crlf_lines) = crlf_lines
  ∧ parse_text (join_lines [CR] crlf_lines) = parse_lines crlf_lines
  ∧ read_lines (join_lines [LF] crlf_lines ++ lit "# the end")
    = crlf_lines ++ [lit "# the end"].
Proof.
  assert (H1 : Forall clean_line crlf_lines).
  { apply (bool_decide_eq_true_1 (Forall clean_line crlf_lines)).
    vm_compute. reflexivity. }
  assert (H2 : clean_line (lit "# the end")).
  { apply (bool_decide_eq_true_1 (clean_line (lit "# the end"))).
    vm_compute. reflexivity. }
  assert (H3 : lit "# the end" ≠ []) by (vm_compute; discriminate).
  pose proof (read_lines_line_endings crlf_lines (lit "# the end") H1 H2 H3) as H.
  exact (conj H1 (conj H2 (conj H3 (conj (proj1 H)
           (conj (proj1 (proj2 H)) (proj1 (proj2 (proj2 H)))))))).
Defined.

(** Both channels of the scenario are probed, with a pause after each. *)
Lemma clean_m3u_probes_each_once_witness :
  files (demo_world demo_playlist None) !! demo_in = Some demo_playlist
  ∧ (@clean_m3u demo_platform demo_in demo_out None (demo_world demo_playlist None)).1
    = Return ()
  ∧ validations (trace (@clean_m3u demo_platform demo_in demo_out None
                          (demo_world demo_playlist None)).2)
    = validations (trace (demo_world demo_playlist None))
      ++ concat ((λ en : entry, [Probe en.2; Sleep (3 # 10)])
                 <$> visited None 1 (parse_text demo_playlist).2).
Proof.
  assert (H1 : files (demo_world demo_playlist None) !! demo_in = Some demo_playlist)
    by (vm_compute; reflexivity).
  assert (H2 : (@clean_m3u demo_platform demo_in demo_out None
                  (demo_world demo_playlist None)).1 = Return ())
    by (vm_compute; reflexivity).
  exact (conj H1 (conj H2
    (@clean_m3u_probes_each_once demo_platform demo_in demo_out None _ _ H1 H2))).
Defined.

(** The run of the scenario, limited to one channel. *)
Lemma clean_m3u_writes_entries_with_ok_witness :
  files (demo_world demo_playlist None) !! demo_in = Some demo_playlist
  ∧ (@clean_m3u demo_platform demo_in demo_out (Some 1%Z)
       (demo_world demo_playlist None)).1 = Return ()
  ∧ ∃ verdicts,
      length verdicts = length (visited (Some 1%Z) 1 (parse_text demo_playlist).2)
      ∧ files (@clean_m3u demo_platform demo_in demo_out (Some 1%Z)
                 (demo_world demo_playlist None)).2 !! demo_out
        = Some (playlist_text (ensure_marker (parse_text demo_playlist).1)
                  (kept_of (zip (visited (Some 1%Z) 1 (parse_text demo_playlist).2)
                              verdicts))).
Proof.
  assert (H1 : files (demo_world demo_playlist None) !! demo_in = Some demo_playlist)
    by (vm_compute; reflexivity).
  assert (H2 : (@clean_m3u demo_platform demo_in demo_out (Some 1%Z)
                  (demo_world demo_playlist None)).1 = Return ())
    by (vm_compute; reflexivity).
  refine (conj H1 (conj H2 _)).
  destruct (@clean_m3u_writes_entries_with_ok demo_platform demo_in demo_out
              (Some 1%Z) _ _ H1 H2) as (verdicts & wevs & Hlen & _ & Hf & _).
  exact (ex_intro _ verdicts (conj Hlen Hf)).
Defined.

(** The scenario when the output file cannot be opened: the input file
    is as it was, and so is every file. *)
Lemma clean_m3u_touches_only_output_witness :
  demo_in ≠ demo_out
  ∧ (@clean_m3u_F demo_platform demo_in demo_out None no_output
       (demo_world demo_playlist None)).1.1 = Raise OSError
  ∧ files (@clean_m3u_F demo_platform demo_in demo_out None no_output
             (demo_world demo_playlist None)).1.2 !! demo_in
    = files (demo_world demo_playlist None) !! demo_in
  ∧ files (@clean_m3u_F demo_platform demo_in demo_out None no_output
             (demo_world demo_playlist None)).1.2
    = files (demo_world demo_playlist None).
Proof.
  assert (H1 : demo_in ≠ demo_out) by (vm_compute; discriminate).
  assert (H2 : (@clean_m3u_F demo_platform demo_in demo_out None no_output
                  (demo_world demo_playlist None)).1.1 = Raise OSError)
    by (vm_compute; reflexivity).
  assert (H3 : trace (@clean_m3u_F demo_platform demo_in demo_out None no_output
                        (demo_world demo_playlist None)).1.2
               = trace (demo_world demo_playlist None)
                 ++ trace (@clean_m3u_F demo_platform demo_in demo_out None no_output
                             (demo_world demo_playlist None)).1.2)
    by (vm_compute; reflexivity).
  assert (H4 : Forall (λ ev, is_write ev = false)
                 (trace (@clean_m3u_F demo_platform demo_in demo_out None no_output
                           (demo_world demo_playlist None)).1.2)).
  { apply (bool_decide_eq_true_1 (Forall _ _)). vm_compute. reflexivity. }
  pose proof (@clean_m3u_touches_only_output demo_platform demo_in demo_out None
                no_output (demo_world demo_playlist None) demo_in H1) as H.
  exact (conj H1 (conj H2 (conj (proj1 H) (proj2 H _ H3 H4)))).
Defined.

(** A run on a file that is not there. *)
Lemma main_without_input_file_witness :
  files (demo_world demo_playlist None) !! input missing_args = None
  ∧ @main demo_platform missing_args (demo_world demo_playlist None)
    = (Raise OSError, demo_world demo_playlist None).
Proof.
  assert (H1 : files (demo_world demo_playlist None) !! input missing_args = None)
    by (vm_compute; reflexivity).
  exact (conj H1 (proj1 (proj2
    (@main_without_input_file demo_platform missing_args _ H1)))).
Defined.

(** The file written in the scenario, read back. *)
Lemma clean_m3u_output_parses_back_witness :
  files (demo_world demo_playlist None) !! demo_in = Some demo_playlist
  ∧ (@clean_m3u demo_platform demo_in demo_out None (demo_world demo_playlist None)).1
    = Return ()
  ∧ ∃ written kept,
      files (@clean_m3u demo_platform demo_in demo_out None
               (demo_world demo_playlist None)).2 !! demo_out = Some written
      ∧ kept `sublist_of` (parse_text demo_playlist).2
      ∧ parse_text written = (ensure_marker (parse_text demo_playlist).1, kept)
      ∧ ensure_marker (parse_text written).1 = (parse_text written).1.
Proof.
  assert (H1 : files (demo_world demo_playlist None) !! demo_in = Some demo_playlist)
    by (vm_compute; reflexivity).
  assert (H2 : (@clean_m3u demo_platform demo_in demo_out None
                  (demo_world demo_playlist None)).1 = Return ())
    by (vm_compute; reflexivity).
  exact (conj H1 (conj H2
    (@clean_m3u_output_parses_back demo_platform demo_in demo_out None _ _ H1 H2))).
Defined.

(** The scenario without network. *)
Lemma clean_m3u_offline_witness :
  (∀ req t e, ∃ ex, (@urlopen offline_platform req t e).1 = Raise ex
                    ∧ is_Exception ex = true)
  ∧ files (offline_world demo_playlist) !! demo_in = Some demo_playlist
  ∧ (@clean_m3u offline_platform demo_in demo_out None (offline_world demo_playlist)).1
    = Return ()
  ∧ files (@clean_m3u offline_platform demo_in demo_out None
             (offline_world demo_playlist)).2 !! demo_out
    = Some (join_lines [LF]
              (if has_marker (parse_text demo_playlist).1
               then (parse_text demo_playlist).1
               else EXTM3U :: (parse_text demo_playlist).1)).
Proof.
  assert (H1 : ∀ req t e, ∃ ex, (@urlopen offline_platform req t e).1 = Raise ex
                                ∧ is_Exception ex = true)
    by (intros req t e; exact (ex_intro _ URLError (conj eq_refl eq_refl))).
  assert (H2 : files (offline_world demo_playlist) !! demo_in = Some demo_playlist)
    by (vm_compute; reflexivity).
  assert (H3 : (@clean_m3u offline_platform demo_in demo_out None
                  (offline_world demo_playlist)).1 = Return ())
    by (vm_compute; reflexivity).
  exact (conj H1 (conj H2 (conj H3 (proj1
    (@clean_m3u_offline offline_platform demo_in demo_out None _ _ H1 H2 H3))))).
Defined.

(** The probe of the server that answers. *)
Lemma test_url_true_iff_witness :
  Request (lit "http://good.example/stream") user_agent = Return good_request
  ∧ ((@test_url demo_platform (lit "http://good.example/stream") 5
        (demo_world demo_playlist None)).1 = Return true
     ↔ ∃ resp e1 chunk e2,
         @urlopen demo_platform good_request 5 (env (demo_world demo_playlist None))
         = (Return resp, e1)
         ∧ (200 ≤ @status demo_platform resp < 300)%Z
         ∧ @read demo_platform resp 1024 e1 = (Return chunk, e2)
         ∧ chunk ≠ []).
Proof.
  assert (H1 : Request (lit "http://good.example/stream") user_agent
               = Return good_request)
    by (vm_compute; reflexivity).
  exact (conj H1 (proj1
    (@test_url_true_iff demo_platform (lit "http://good.example/stream") 5
       (demo_world demo_playlist None) good_request H1))).
Defined.


(** The playlist with the link to a local file. *)
Lemma clean_m3u_lost_without_scheme_witness :
  files (demo_world local_playlist None) !! input demo_args = Some local_playlist
  ∧ (lit "#EXTINF:-1,Local file", lit "videos/local.ts")
    ∈ visited (max_channels demo_args) 1 (parse_text local_playlist).2
  ∧ has_scheme false (splittag_path (unwrap (lit "videos/local.ts"))) = false
  ∧ files (@main demo_platform demo_args (demo_world local_playlist None)).2
    = files (demo_world local_playlist None).
Proof.
  assert (H1 : files (demo_world local_playlist None) !! input demo_args
               = Some local_playlist)
    by (vm_compute; reflexivity).
  assert (H2 : (lit "#EXTINF:-1,Local file", lit "videos/local.ts")
               ∈ visited (max_channels demo_args) 1 (parse_text local_playlist).2)
    by (vm_compute; constructor).
  assert (H3 : has_scheme false (splittag_path (unwrap (lit "videos/local.ts"))) = false)
    by (vm_compute; reflexivity).
  exact (conj H1 (conj H2 (conj H3 (proj2 (proj2 (proj2
    (@clean_m3u_lost_without_scheme demo_platform demo_args _ _
       (lit "#EXTINF:-1,Local file", lit "videos/local.ts") H1 H2 H3))))))).
Defined.
